(** * openid2go: the ID-token validator ([openid/idtokenvalidator.go])

    A shallow embedding of the claim validators ([validateIssuer],
    [validateAudiences], [validateSubject]), of the two key-resolution
    callbacks ([getSigningKey], [renewAndGetSigningKey]) and of the
    orchestrator ([validate]), followed by the properties proved about
    them.

    Conventions.
    - A Go [interface{}] holding a decoded JSON value is the inductive
      [iface]; a comma-ok type assertion [v.(string)] is [assert_string],
      which yields the zero value and [false] on every other dynamic type,
      the nil interface included.
    - A Go map indexed at a missing key yields the zero value of its element
      type: [index] returns [INil] there.
    - The validators return either a value or an error, never both: they are
      embedded with the sum type [result].  The injected collaborators are
      foreign code and keep Go's pair [(value, error)].
    - Calls to the injected collaborators are events of a program tree
      ([prog]); a runtime panic is a leaf of that tree. *)

From Stdlib Require Import ZArith List Bool Lia.
From stdpp Require Import base option gmap strings list.

#[local] Set Warnings "-register-all".
Local Open Scope string_scope.
Local Open Scope list_scope.

(** ** Dynamic values *)

(** What [encoding/json] stores in an [interface{}]: nil, a string, a number
    (float64; only its dynamic type matters here, the payload is kept as an
    integer), a boolean, a slice or a map. *)
Inductive iface : Type :=
| INil
| IString (s : string)
| IFloat64 (n : Z)
| IBool (b : bool)
| ISlice (l : list iface)
| IMap (m : list (string * iface)).

(** [v, ok := x.(string)] *)
Definition assert_string (x : iface) : string * bool :=
  match x with
  | IString s => (s, true)
  | _ => ("", false)
  end.

(** [v, ok := x.([]interface{})] *)
Definition assert_slice (x : iface) : list iface * bool :=
  match x with
  | ISlice l => (l, true)
  | _ => ([], false)
  end.

(** [m[k]] on a [map[string]interface{}] *)
Definition index (m : gmap string iface) (k : string) : iface :=
  default INil (m !! k).

(** [jwt.Token], restricted to the two fields the validator reads.  [Claims]
    is the [jwt.MapClaims] that [jwt.Parse] builds. *)
Record Token : Type := mkToken {
  Header : gmap string iface;
  Claims : gmap string iface
}.

(** ** Providers and errors *)

(** Modelled from the spec: the [Provider] struct is declared outside this
    file (section 3: an issuer and an ordered sequence of client
    identifiers). *)
Record Provider : Type := mkProvider {
  Issuer : string;
  ClientIDs : list string
}.

(** Modelled from the spec: the error-code constants are declared outside
    this file (section 7 lists the codes used by claim validation). *)
Inductive ValidationErrorCode : Type :=
| ValidationErrorInvalidIssuerType
| ValidationErrorInvalidIssuer
| ValidationErrorIssuerNotFound
| ValidationErrorInvalidAudienceType
| ValidationErrorInvalidAudience
| ValidationErrorAudienceNotFound
| ValidationErrorInvalidSubjectType
| ValidationErrorInvalidSubject.

(** An argument of [fmt.Sprintf]. *)
Inductive fmt_arg : Type :=
| ArgIface (v : iface)
| ArgSlice (l : list iface)
| ArgString (s : string).

(** A message is kept as its format string and arguments; rendering the
    verbs is left to [fmt]. *)
Inductive message : Type :=
| Literal (s : string)
| Sprintf (format : string) (args : list fmt_arg).

(** Modelled from the spec: the [ValidationError] struct is declared outside
    this file (section 3: a code, a message and an HTTP status). *)
Record ValidationError : Type := mkValidationError {
  Code : ValidationErrorCode;
  Message : message;
  HTTPStatus : Z
}.

(** [http.StatusUnauthorized] *)
Definition StatusUnauthorized : Z := 401.

(** A Go [error] value, by dynamic type: this package's [*ValidationError],
    the parser's [*jwt.ValidationError] (its [Errors] bit field is a uint32),
    or anything else. *)
Inductive error : Type :=
| OpenIDError (e : ValidationError)
| JwtValidationError (Inner : option error) (Errors : Z)
| OtherError (msg : string).

(** [jwt.ValidationErrorSignatureInvalid] is [1 << 2] in jwt-go. *)
Definition ValidationErrorSignatureInvalid : Z := Z.shiftl 1 2.

Inductive result (A : Type) : Type :=
| Ok (a : A)
| Err (e : error).
Arguments Ok {A} a.
Arguments Err {A} e.

(** ** Claim extraction *)

Definition issuerClaimName : string := "iss".
Definition audiencesClaimName : string := "aud".
Definition subjectClaimName : string := "sub".
Definition keyIDJwtHeaderName : string := "kid".

Definition getIssuer (t : Token) : iface := index (Claims t) issuerClaimName.

Definition getSubject (t : Token) : iface := index (Claims t) subjectClaimName.

Definition getTokenKid (jt : Token) : string :=
  fst (assert_string (index (Header jt) keyIDJwtHeaderName)).

Definition getAudiences (t : Token) : result (list iface) :=
  let audiencesClaim := index (Claims t) audiencesClaimName in
  match assert_string audiencesClaim with
  | (aud, true) => Ok [IString aud]
  | (_, false) =>
    match assert_slice audiencesClaim with
    | (l, true) => Ok l
    | (_, false) =>
      Err (OpenIDError {|
        Code := ValidationErrorInvalidAudienceType;
        Message := Sprintf "Invalid Audiences type: %T" [ArgIface audiencesClaim];
        HTTPStatus := StatusUnauthorized |})
    end
  end.

(** ** Issuer matching *)

(** The [for _, p := range ps] loop of [validateIssuer]. *)
Fixpoint issuer_loop (ti gi : string) (ps : list Provider) : option Provider :=
  match ps with
  | [] => None
  | p :: ps' =>
    if String.eqb ti (Issuer p) || String.eqb gi (Issuer p)
    then Some p
    else issuer_loop ti gi ps'
  end.

Definition validateIssuer (jt : Token) (ps : list Provider) : result Provider :=
  let issuerClaim := getIssuer jt in
  match assert_string issuerClaim with
  | (_, false) =>
    Err (OpenIDError {|
      Code := ValidationErrorInvalidIssuerType;
      Message := Sprintf "Invalid Issuer type: %T" [ArgIface issuerClaim];
      HTTPStatus := StatusUnauthorized |})
  | (ti, true) =>
    if String.eqb ti "" then
      Err (OpenIDError {|
        Code := ValidationErrorInvalidIssuer;
        Message := Literal "The token 'iss' claim was not found or was empty.";
        HTTPStatus := StatusUnauthorized |})
    else
      let gi := if String.eqb ti "accounts.google.com" then "https://" +:+ ti else ti in
      match issuer_loop ti gi ps with
      | Some p => Ok p
      | None =>
        Err (OpenIDError {|
          Code := ValidationErrorIssuerNotFound;
          Message := Sprintf "No provider was registered with issuer: %v" [ArgString ti];
          HTTPStatus := StatusUnauthorized |})
      end
  end.

(** ** Subject validation *)

Definition validateSubject (jt : Token) : result string :=
  let subjectClaim := getSubject jt in
  match assert_string subjectClaim with
  | (_, false) =>
    Err (OpenIDError {|
      Code := ValidationErrorInvalidSubjectType;
      Message := Sprintf "Invalid subject type: %T" [ArgIface subjectClaim];
      HTTPStatus := StatusUnauthorized |})
  | (ts, true) =>
    if String.eqb ts "" then
      Err (OpenIDError {|
        Code := ValidationErrorInvalidSubject;
        Message := Literal "The token 'sub' claim was not found or was empty.";
        HTTPStatus := StatusUnauthorized |})
    else Ok ts
  end.

(** ** Audience matching *)

(** The inner loop of [validateAudiences], for one configured client
    identifier [aud]: [None] when the loop runs to its end, [Some r] when it
    returns [r].  [audiencesClaim] is the whole slice (it goes into the
    message), [l] what is left to scan.  The diagnostic line that
    [fmt.Printf] writes to standard output before the first return is not
    part of the result and is left out. *)
Fixpoint audience_scan (aud : string) (audiencesClaim l : list iface)
  : option (result string) :=
  match l with
  | [] => None
  | audienceClaim :: l' =>
    match assert_string audienceClaim with
    | (_, false) =>
      Some (Err (OpenIDError {|
        Code := ValidationErrorInvalidAudienceType;
        Message := Sprintf "Invalid Audiences type: %T" [ArgSlice audiencesClaim];
        HTTPStatus := StatusUnauthorized |}))
    | (ta, true) =>
      if String.eqb ta "" then
        Some (Err (OpenIDError {|
          Code := ValidationErrorInvalidAudience;
          Message := Literal "The token 'aud' claim was not found or was empty.";
          HTTPStatus := StatusUnauthorized |}))
      else if String.eqb ta aud then Some (Ok ta)
      else audience_scan aud audiencesClaim l'
    end
  end.

(** The outer loop, over [p.ClientIDs]. *)
Fixpoint clientid_loop (ids : list string) (audiencesClaim : list iface)
  : option (result string) :=
  match ids with
  | [] => None
  | aud :: ids' =>
    match audience_scan aud audiencesClaim audiencesClaim with
    | Some r => Some r
    | None => clientid_loop ids' audiencesClaim
    end
  end.

Definition validateAudiences (jt : Token) (p : Provider) : result string :=
  match getAudiences jt with
  | Err err => Err err
  | Ok audiencesClaim =>
    match clientid_loop (ClientIDs p) audiencesClaim with
    | Some r => r
    | None =>
      Err (OpenIDError {|
        Code := ValidationErrorAudienceNotFound;
        Message :=
          Sprintf
            "The provider %v does not have a client id matching any of the token audiences %+v"
            [ArgString (Issuer p); ArgSlice audiencesClaim];
        HTTPStatus := StatusUnauthorized |})
    end
  end.

(** ** Programs over injected collaborators *)

(** A computation that calls collaborators is a tree: it returns, panics, or
    issues a call [e] and continues with the answer. *)
Inductive prog (E : Type -> Type) (A : Type) : Type :=
| Ret (a : A)
| Panic
| Vis {X : Type} (e : E X) (k : X -> prog E A).
Arguments Ret {E A} a.
Arguments Panic {E A}.
Arguments Vis {E A X} e k.

Fixpoint prog_bind {E : Type -> Type} {A B : Type}
    (f : A -> prog E B) (p : prog E A) : prog E B :=
  match p with
  | Ret a => f a
  | Panic => Panic
  | Vis e k => Vis e (fun x => prog_bind f (k x))
  end.

#[export] Instance prog_mret {E} : MRet (prog E) := fun _ a => Ret a.
#[export] Instance prog_mbind {E} : MBind (prog E) := fun _ _ f p => prog_bind f p.

Definition trigger {E : Type -> Type} {X : Type} (e : E X) : prog E X :=
  Vis e Ret.

(** One call together with the answer it got. *)
Inductive interaction (E : Type -> Type) : Type :=
| Call {X : Type} (e : E X) (x : X).
Arguments Call {E X} e x.

Inductive outcome (A : Type) : Type :=
| Returned (a : A)
| Panicked.
Arguments Returned {A} a.
Arguments Panicked {A}.

(** An environment answers every call and may change its own state [S]
    (a key cache, the network, ...). *)
Definition handler (E : Type -> Type) (S : Type) : Type :=
  forall X : Type, E X -> S -> X * S.

(** Running a program in an environment: its outcome, the calls it made in
    order, and the final state of the environment. *)
Fixpoint run {E : Type -> Type} {A S : Type}
    (h : handler E S) (p : prog E A) (s : S)
  : outcome A * list (interaction E) * S :=
  match p with
  | Ret a => (Returned a, [], s)
  | Panic => (Panicked, [], s)
  | Vis e k =>
    let '(x, s1) := h _ e s in
    let '(o, tr, s2) := run h (k x) s1 in
    (o, Call e x :: tr, s2)
  end.

(** ** Key resolution and the orchestrator *)

(** [rsa.PublicKey] *)
Record PublicKey : Type := mkPublicKey {
  rsa_N : Z;
  rsa_E : Z
}.

(** What a [jwt.Keyfunc] returns: [(interface{}, error)], the first
    component holding a [*rsa.PublicKey] or nil. *)
Definition keyfunc_result : Type := option PublicKey * option error.

Section Validator.

(** [*http.Request]: only handed on to the key getter. *)
Context {Request : Type}.

(** [providers(provs).validate()] and [jwtErrorToOpenIDError] are defined
    in other files of the package. *)
Variable providers_validate : list Provider -> option error.
Variable jwtErrorToOpenIDError : error -> error.

(** The fields [provGetter], [keyGetter] and [rsaParser] of
    [idTokenValidator]. *)
Inductive collabE : Type -> Type :=
| ProvGetter : collabE (list Provider * option error)
| KeyGetter_getSigningKey (r : Request) (iss kid : string)
  : collabE (list Byte.byte * option error)
| KeyGetter_flushCachedSigningKeys (iss : string) : collabE (option error)
| RsaParser (key : list Byte.byte) : collabE (option PublicKey * option error).

Definition getSigningKey (r : Request) (jt : Token)
  : prog collabE keyfunc_result :=
  '(provs, err) ← trigger ProvGetter;
  match err with
  | Some e => Ret (None, Some e)
  | None =>
    match providers_validate provs with
    | Some e => Ret (None, Some e)
    | None =>
      match validateIssuer jt provs with
      | Err e => Ret (None, Some e)
      | Ok p =>
        match validateAudiences jt p with
        | Err e => Ret (None, Some e)
        | Ok _ =>
          match validateSubject jt with
          | Err e => Ret (None, Some e)
          | Ok _ =>
            let kid := getTokenKid jt in
            '(key, err) ← trigger (KeyGetter_getSigningKey r (Issuer p) kid);
            match err with
            | None => trigger (RsaParser key)
            | Some e => Ret (None, Some e)
            end
          end
        end
      end
    end
  end.

Definition renewAndGetSigningKey (r : Request) (jt : Token)
  : prog collabE keyfunc_result :=
  (* [jt.Claims.(jwt.MapClaims)[issuerClaimName].(string)]: the one-result
     form of the assertion panics when it fails *)
  match assert_string (index (Claims jt) issuerClaimName) with
  | (_, false) => Panic
  | (iss, true) =>
    err ← trigger (KeyGetter_flushCachedSigningKeys iss);
    match err with
    | Some e => Ret (None, Some e)
    | None =>
      let kid := getTokenKid jt in
      '(key, err) ← trigger (KeyGetter_getSigningKey r iss kid);
      match err with
      | None => trigger (RsaParser key)
      | Some e => Ret (None, Some e)
      end
    end
  end.

(** [jwt.Keyfunc] *)
Definition Keyfunc : Type := Token -> prog collabE keyfunc_result.

(** The field [jwtParser]: it takes the token string and a key function
    and answers a pair of a [*jwt.Token] and an [error]. *)
Inductive parserE : Type -> Type :=
| JwtParser (t : string) (keyFunc : Keyfunc)
  : parserE (option Token * option error).

(** The retry test of [validate]: [err] has dynamic type
    [*jwt.ValidationError] and
    [verr.Errors & jwt.ValidationErrorSignatureInvalid != 0]. *)
Definition signature_invalid (err : error) : bool :=
  match err with
  | JwtValidationError _ errors =>
    negb (Z.land errors ValidationErrorSignatureInvalid =? 0)%Z
  | _ => false
  end.

Definition validate (r : Request) (t : string)
  : prog parserE (option Token * option error) :=
  '(jt, err) ← trigger (JwtParser t (fun tok => getSigningKey r tok));
  '(jt, err) ←
    match err with
    | Some e =>
      if signature_invalid e
      then trigger (JwtParser t (fun tok => renewAndGetSigningKey r tok))
      else Ret (jt, err)
    | None => Ret (jt, err)
    end;
  match err with
  | Some e => Ret (None, Some (jwtErrorToOpenIDError e))
  | None => Ret (jt, None)
  end.

End Validator.

(** ** Vocabulary of the statements *)

(** The code of an error of this package, if it is one. *)
Definition error_code (e : error) : option ValidationErrorCode :=
  match e with
  | OpenIDError ve => Some (Code ve)
  | _ => None
  end.

Definition result_code {A : Type} (r : result A) : option ValidationErrorCode :=
  match r with
  | Ok _ => None
  | Err e => error_code e
  end.

(** The HTTP status an error of this package carries. *)
Definition error_status (e : error) : option Z :=
  match e with
  | OpenIDError ve => Some (HTTPStatus ve)
  | _ => None
  end.

Definition is_string (x : iface) : bool := snd (assert_string x).

(** The matching rule of section 4.1, in the words of the specification: the
    claim verbatim, and for the claim [accounts.google.com] also its prefixed
    form. *)
Definition issuer_matches (claim : string) (p : Provider) : Prop :=
  claim = Issuer p ∨
  (claim = "accounts.google.com" ∧ "https://accounts.google.com" = Issuer p).

(** [p] is the first provider of [ps], in registry order, that matches. *)
Definition first_match (claim : string) (ps : list Provider) (p : Provider) : Prop :=
  ∃ ps1 ps2, ps = ps1 ++ p :: ps2 ∧ issuer_matches claim p ∧
             Forall (λ q, ¬ issuer_matches claim q) ps1.

(** An audience entry on which the scan for client identifier [c] moves on:
    a non-empty string other than [c]. *)
Definition passed_over (c : string) (x : iface) : Prop :=
  ∃ s, x = IString s ∧ s ≠ "" ∧ s ≠ c.

(** A token with the given claims and no header field. *)
Definition token_of_claims (c : list (string * iface)) : Token :=
  mkToken ∅ (list_to_map c).

(** ** Vocabulary of the statements about calls *)

Section Calls.

Context {Request : Type}.

(** The error a collaborator answered with, if it answered with one. *)
Definition response_error (i : interaction (@collabE Request)) : option error :=
  match i with
  | Call e x =>
    match e in collabE X return X → option error with
    | ProvGetter => λ x, snd x
    | KeyGetter_getSigningKey _ _ _ => λ x, snd x
    | KeyGetter_flushCachedSigningKeys _ => λ x, x
    | RsaParser _ => λ x, snd x
    end x
  end.

Definition is_provGetter (i : interaction (@collabE Request)) : bool :=
  match i with
  | Call e _ => match e with ProvGetter => true | _ => false end
  end.

Definition is_getSigningKey (i : interaction (@collabE Request)) : bool :=
  match i with
  | Call e _ => match e with KeyGetter_getSigningKey _ _ _ => true | _ => false end
  end.

Definition is_flush (i : interaction (@collabE Request)) : bool :=
  match i with
  | Call e _ => match e with KeyGetter_flushCachedSigningKeys _ => true | _ => false end
  end.

Definition is_rsaParser (i : interaction (@collabE Request)) : bool :=
  match i with
  | Call e _ => match e with RsaParser _ => true | _ => false end
  end.

(** The key identifier a call to the key resolver asks for. *)
Definition requested_kid (i : interaction (@collabE Request)) : option string :=
  match i with
  | Call e _ =>
    match e with
    | KeyGetter_getSigningKey _ _ kid => Some kid
    | _ => None
    end
  end.

(** The request, issuer and key identifier of a call to the key resolver. *)
Definition key_request (i : interaction (@collabE Request))
  : option (Request * string * string) :=
  match i with
  | Call e _ =>
    match e with
    | KeyGetter_getSigningKey r iss kid => Some (r, iss, kid)
    | _ => None
    end
  end.

(** The issuer whose cached keys a call flushes. *)
Definition flushed_issuer (i : interaction (@collabE Request)) : option string :=
  match i with
  | Call e _ =>
    match e with
    | KeyGetter_flushCachedSigningKeys iss => Some iss
    | _ => None
    end
  end.

(** How many calls of a trace satisfy [f]. *)
Definition count_calls {E : Type → Type} (f : interaction E → bool)
    (tr : list (interaction E)) : nat :=
  length (List.filter f tr).

(** What the parser answered in a call. *)
Definition parse_response (i : interaction (@parserE Request))
  : option Token * option error :=
  match i with
  | Call e x =>
    match e in parserE X return X → option Token * option error with
    | JwtParser _ _ => λ x, x
    end x
  end.

(** The token string and the key function a parser call was given. *)
Definition parse_arguments (i : interaction (@parserE Request))
  : string * Keyfunc (Request := Request) :=
  match i with
  | Call e _ => match e with JwtParser t kf => (t, kf) end
  end.

(** The answer of a parse attempt is a parser validation error with the
    signature-invalid bit set. *)
Definition signature_mismatch (x : option Token * option error) : Prop :=
  ∃ inner errors, snd x = Some (JwtValidationError inner errors) ∧
                  Z.testbit errors 2 = true.

(** [validate] ends with the answer [x] of a parse attempt: an error goes
    through the translation [tr_err], a token is handed on. *)
Definition returns_answer (tr_err : error → error)
    (o : outcome (option Token * option error))
    (x : option Token * option error) : Prop :=
  match snd x with
  | Some e => o = Returned (None, Some (tr_err e))
  | None => o = Returned (fst x, None)
  end.

End Calls.

(** ** Environments used in the examples *)

(** Modelled from the spec: [providers.validate] is defined outside this
    file (section 6: the list is non-empty, and every provider has a
    non-empty issuer and at least one client identifier). *)
Definition providers_validate_spec (ps : list Provider) : option error :=
  if forallb (λ p, negb (String.eqb (Issuer p) "") &&
                   negb (Nat.eqb (length (ClientIDs p)) 0)) ps
     && negb (Nat.eqb (length ps) 0)
  then None
  else Some (OtherError "invalid provider collection").

(** Collaborators that answer with fixed values and count the calls made to
    them. *)
Definition fixed_env (provs : list Provider) (perr kerr ferr rerr : option error)
  : handler (@collabE unit) nat :=
  λ X e n,
    match e in collabE X return X * nat with
    | ProvGetter => ((provs, perr), S n)
    | KeyGetter_getSigningKey _ _ _ => (([], kerr), S n)
    | KeyGetter_flushCachedSigningKeys _ => (ferr, S n)
    | RsaParser _ => ((Some (mkPublicKey 3233 17), rerr), S n)
    end.

(** A parser whose first attempt reports a signature mismatch and whose
    later attempts accept the token [jt]; its state counts the attempts. *)
Definition stale_key_parser (jt : Token) : handler (@parserE unit) nat :=
  λ X e n,
    match e in parserE X return X * nat with
    | JwtParser _ _ =>
      (match n with
       | O => (None, Some (JwtValidationError None ValidationErrorSignatureInvalid))
       | _ => (Some jt, None)
       end, S n)
    end.

Definition example_provider : Provider :=
  mkProvider "https://idp.example" ["client-1"].

Definition example_token : Token :=
  token_of_claims
    [("iss", IString "https://idp.example"); ("aud", IString "client-1");
     ("sub", IString "user-42")].

(** A token whose audience list holds a configured client identifier
    followed by a number. *)
Definition mixed_audience_token : Token :=
  token_of_claims
    [("iss", IString "https://idp.example");
     ("aud", ISlice [IString "client-1"; IFloat64 42]);
     ("sub", IString "user-42")].

(** A token issued by Google under the bare host name. *)
Definition google_token : Token :=
  token_of_claims
    [("iss", IString "accounts.google.com"); ("aud", IString "client-1");
     ("sub", IString "user-42")].

(** ** Vocabulary of the further properties *)

(** A claim value that is absent (or null) or the empty string. *)
Definition absent_or_empty (x : iface) : Prop :=
  x = INil ∨ x = IString "".

(** The value of a successful result. *)
Definition result_value {A : Type} (r : result A) : option A :=
  match r with
  | Ok a => Some a
  | Err _ => None
  end.

Section KeyFlow.

Context {Request : Type}.

(** The bytes a call hands to the key decoder. *)
Definition decoded_bytes (i : interaction (@collabE Request))
  : option (list Byte.byte) :=
  match i with
  | Call e _ =>
    match e with
    | RsaParser key => Some key
    | _ => None
    end
  end.

(** The bytes the key resolver answered with, when it answered without an
    error. *)
Definition fetched_bytes (i : interaction (@collabE Request))
  : option (list Byte.byte) :=
  match i with
  | Call e x =>
    match e in collabE X return X → option (list Byte.byte) with
    | KeyGetter_getSigningKey _ _ _ =>
      λ x, match snd x with None => Some (fst x) | Some _ => None end
    | _ => λ _, None
    end x
  end.

(** What the key decoder answered. *)
Definition decoder_answer (i : interaction (@collabE Request))
  : option keyfunc_result :=
  match i with
  | Call e x =>
    match e in collabE X return X → option keyfunc_result with
    | RsaParser _ => λ x, Some x
    | _ => λ _, None
    end x
  end.

End KeyFlow.

(** A token that differs from [example_token] in claims and header fields
    the validator does not read. *)
Definition example_token_with_more : Token :=
  mkToken
    (list_to_map [("alg", IString "RS256"); ("typ", IString "JWT")])
    (list_to_map
       [("iss", IString "https://idp.example"); ("aud", IString "client-1");
        ("sub", IString "user-42"); ("exp", IFloat64 1700000000);
        ("nonce", IString "n-0S6_WzA2Mj")]).

(** The key request of the first pass and the flush of the renewal on
    [google_token], with the provider registered under the prefixed form. *)
Definition google_first_pass_request : interaction (@collabE unit) :=
  Call (KeyGetter_getSigningKey tt "https://accounts.google.com" "") ([], None).

Definition google_renewal_flush : interaction (@collabE unit) :=
  Call (KeyGetter_flushCachedSigningKeys "accounts.google.com") None.

(** The decoder call that [fixed_env] answers. *)
Definition example_decode_call : interaction (@collabE unit) :=
  Call (RsaParser []) (Some (mkPublicKey 3233 17), None).

(** * Properties *)

(** ** Lookups and assertions *)

Lemma index_Some (m : gmap string iface) (k : string) (v : iface) :
  m !! k = Some v → index m k = v.
Proof. intros H. unfold index. by rewrite H. Qed.

Lemma index_None (m : gmap string iface) (k : string) :
  m !! k = None → index m k = INil.
Proof. intros H. unfold index. by rewrite H. Qed.

Lemma eqb_empty_false (s : string) : s ≠ "" → String.eqb s "" = false.
Proof. intros H. by apply String.eqb_neq. Qed.

(** ** Issuer matching *)

Lemma issuer_loop_Some (ti gi : string) (ps : list Provider) (p : Provider) :
  issuer_loop ti gi ps = Some p ↔
  ∃ ps1 ps2, ps = ps1 ++ p :: ps2 ∧ (ti = Issuer p ∨ gi = Issuer p) ∧
             Forall (λ q, ¬ (ti = Issuer q ∨ gi = Issuer q)) ps1.
Proof.
  induction ps as [|q ps IH]; simpl.
  - split; [discriminate|]. intros (ps1 & ps2 & H & _). by destruct ps1.
  - destruct (String.eqb ti (Issuer q) || String.eqb gi (Issuer q)) eqn:Hq.
    + apply orb_true_iff in Hq. rewrite !String.eqb_eq in Hq. split.
      * intros [= ->]. exists [], ps. by repeat split.
      * intros (ps1 & ps2 & H & Hp & Hall). destruct ps1 as [|q' ps1].
        -- simpl in H. by inversion H.
        -- simpl in H. inversion H; subst q'. inversion Hall; subst. tauto.
    + apply orb_false_iff in Hq. rewrite !String.eqb_neq in Hq.
      rewrite IH. split.
      * intros (ps1 & ps2 & -> & Hp & Hall). exists (q :: ps1), ps2.
        repeat split; [done|]. constructor; [tauto|done].
      * intros (ps1 & ps2 & H & Hp & Hall). destruct ps1 as [|q' ps1].
        -- simpl in H. inversion H; subst. tauto.
        -- simpl in H. inversion H; subst. inversion Hall; subst.
           by exists ps1, ps2.
Qed.

Lemma issuer_loop_None (ti gi : string) (ps : list Provider) :
  issuer_loop ti gi ps = None ↔
  Forall (λ q, ¬ (ti = Issuer q ∨ gi = Issuer q)) ps.
Proof.
  induction ps as [|q ps IH]; simpl.
  - split; [constructor|done].
  - destruct (String.eqb ti (Issuer q) || String.eqb gi (Issuer q)) eqn:Hq.
    + apply orb_true_iff in Hq. rewrite !String.eqb_eq in Hq.
      split; [discriminate|]. intros H. inversion H; subst. tauto.
    + apply orb_false_iff in Hq. rewrite !String.eqb_neq in Hq.
      rewrite IH. split.
      * intros H. constructor; [tauto|done].
      * intros H. by inversion H.
Qed.

(** The two comparisons of the loop, with [gi] as [validateIssuer] computes
    it, are the matching rule of the specification. *)
Lemma loop_test_matches (ti : string) (p : Provider) :
  let gi := if String.eqb ti "accounts.google.com" then "https://" +:+ ti else ti in
  (ti = Issuer p ∨ gi = Issuer p) ↔ issuer_matches ti p.
Proof.
  unfold issuer_matches. simpl.
  destruct (String.eqb ti "accounts.google.com") eqn:Hg.
  - apply String.eqb_eq in Hg. subst ti. simpl. tauto.
  - apply String.eqb_neq in Hg. tauto.
Qed.

Lemma validateIssuer_string (jt : Token) (ps : list Provider) (ti : string) :
  Claims jt !! issuerClaimName = Some (IString ti) → ti ≠ "" →
  validateIssuer jt ps =
    let gi := if String.eqb ti "accounts.google.com" then "https://" +:+ ti else ti in
    match issuer_loop ti gi ps with
    | Some p => Ok p
    | None =>
      Err (OpenIDError {|
        Code := ValidationErrorIssuerNotFound;
        Message := Sprintf "No provider was registered with issuer: %v" [ArgString ti];
        HTTPStatus := StatusUnauthorized |})
    end.
Proof.
  intros Hiss Hne. unfold validateIssuer, getIssuer.
  rewrite (index_Some _ _ _ Hiss). simpl.
  by rewrite (eqb_empty_false _ Hne).
Qed.

(** C3: for a token whose issuer claim is the non-empty string [ti], issuer
    matching succeeds with [p] exactly when [p] is the first provider, in
    registry order, whose [Issuer] equals [ti] or, for [ti] the literal
    [accounts.google.com] only, equals [https://accounts.google.com]; it
    fails with IssuerNotFound exactly when no provider matches.  Nothing is
    aliased the other way round: the claim [https://accounts.google.com] does
    not match a provider registered as [accounts.google.com]. *)
Theorem validateIssuer_first_match (jt : Token) (ti : string) :
  Claims jt !! issuerClaimName = Some (IString ti) → ti ≠ "" →
  (∀ ps p, validateIssuer jt ps = Ok p ↔ first_match ti ps p) ∧
  (∀ ps, result_code (validateIssuer jt ps) = Some ValidationErrorIssuerNotFound ↔
         Forall (λ q, ¬ issuer_matches ti q) ps) ∧
  (ti = "accounts.google.com" → ∀ ids,
     validateIssuer jt [mkProvider "https://accounts.google.com" ids]
     = Ok (mkProvider "https://accounts.google.com" ids)) ∧
  (ti = "https://accounts.google.com" → ∀ ids,
     result_code (validateIssuer jt [mkProvider "accounts.google.com" ids])
     = Some ValidationErrorIssuerNotFound).
Proof.
  intros Hiss Hne.
  assert (Hfm : ∀ ps p, validateIssuer jt ps = Ok p ↔ first_match ti ps p).
  { intros ps p. rewrite (validateIssuer_string jt ps ti Hiss Hne). cbv zeta.
    unfold first_match. split.
    - destruct (issuer_loop _ _ ps) as [p'|] eqn:Hl; [|discriminate].
      intros [= ->]. apply issuer_loop_Some in Hl as (ps1 & ps2 & -> & Hp & Hall).
      exists ps1, ps2. repeat split; [by apply loop_test_matches|].
      eapply Forall_impl; [exact Hall|]. intros q Hq Hm. apply Hq.
      by apply loop_test_matches.
    - intros (ps1 & ps2 & -> & Hp & Hall).
      assert (Hl : issuer_loop ti
                (if String.eqb ti "accounts.google.com" then "https://" +:+ ti else ti)
                (ps1 ++ p :: ps2) = Some p).
      { apply issuer_loop_Some. exists ps1, ps2.
        repeat split; [by apply loop_test_matches|].
        eapply Forall_impl; [exact Hall|]. intros q Hq Hm. apply Hq.
        by apply (loop_test_matches ti q). }
      by rewrite Hl. }
  assert (Hnf : ∀ ps,
    result_code (validateIssuer jt ps) = Some ValidationErrorIssuerNotFound ↔
    Forall (λ q, ¬ issuer_matches ti q) ps).
  { intros ps. rewrite (validateIssuer_string jt ps ti Hiss Hne). cbv zeta.
    destruct (issuer_loop _ _ ps) as [p'|] eqn:Hl; simpl.
    - split; [discriminate|]. intros Hall.
      apply issuer_loop_Some in Hl as (ps1 & ps2 & -> & Hp & _).
      apply Forall_app in Hall as [_ Hall]. inversion Hall; subst.
      exfalso. by apply H1, loop_test_matches.
    - split; [|done]. intros _. apply issuer_loop_None in Hl.
      eapply Forall_impl; [exact Hl|]. intros q Hq Hm. apply Hq.
      by apply (loop_test_matches ti q). }
  repeat split.
  - by apply Hfm.
  - by apply Hfm.
  - by apply Hnf.
  - by apply Hnf.
  - intros -> ids. apply Hfm. exists [], []. repeat split; [|constructor].
    right. by split.
  - intros -> ids. apply Hnf. constructor; [|constructor].
    intros [H|[H _]]; discriminate H.
Qed.

(** How [validateIssuer] answers, by the shape of the issuer claim. *)
Lemma validateIssuer_classify (jt : Token) (ps : list Provider) :
  match Claims jt !! issuerClaimName with
  | Some (IString ti) =>
    if String.eqb ti ""
    then result_code (validateIssuer jt ps) = Some ValidationErrorInvalidIssuer
    else result_code (validateIssuer jt ps) = Some ValidationErrorIssuerNotFound
         ∨ ∃ p, validateIssuer jt ps = Ok p
  | _ => result_code (validateIssuer jt ps) = Some ValidationErrorInvalidIssuerType
  end.
Proof.
  unfold validateIssuer, getIssuer, index.
  destruct (Claims jt !! issuerClaimName) as [[]|]; simpl; try reflexivity.
  destruct (String.eqb s ""); [reflexivity|].
  destruct (issuer_loop _ _ ps); simpl; eauto.
Qed.

(** C4: a token that carries no issuer claim at all is answered with
    InvalidIssuerType, not with InvalidIssuer: indexing the claims at a
    missing key gives the nil interface, on which the string assertion fails
    before the emptiness test is reached.  Shown for every token without the
    claim, and on a token that carries an audience and a subject only. *)
Theorem validateIssuer_missing_claim :
  (∀ (h c : gmap string iface) (ps : list Provider),
     result_code (validateIssuer (mkToken h (delete issuerClaimName c)) ps)
     = Some ValidationErrorInvalidIssuerType) ∧
  result_code
    (validateIssuer
       (token_of_claims [("aud", IString "client-1"); ("sub", IString "user-42")])
       [mkProvider "https://idp.example" ["client-1"]])
  = Some ValidationErrorInvalidIssuerType.
Proof.
  split; [|reflexivity].
  intros h c ps. pose proof (validateIssuer_classify (mkToken h (delete issuerClaimName c)) ps) as H.
  simpl in H. by rewrite lookup_delete_eq in H.
Qed.

(** ** Subject validation *)

Lemma validateSubject_classify (jt : Token) :
  match Claims jt !! subjectClaimName with
  | Some (IString ts) =>
    if String.eqb ts ""
    then result_code (validateSubject jt) = Some ValidationErrorInvalidSubject
    else validateSubject jt = Ok ts
  | _ => result_code (validateSubject jt) = Some ValidationErrorInvalidSubjectType
  end.
Proof.
  unfold validateSubject, getSubject, index.
  destruct (Claims jt !! subjectClaimName) as [[]|]; simpl; try reflexivity.
  by destruct (String.eqb s "").
Qed.

(** C7: a token that carries no subject claim at all is answered with
    InvalidSubjectType, not with InvalidSubject, for the same reason as the
    issuer: the string assertion on the nil interface fails first.  Shown for
    every token without the claim, and on a token that carries an issuer and
    an audience only. *)
Theorem validateSubject_missing_claim :
  (∀ (h c : gmap string iface),
     result_code (validateSubject (mkToken h (delete subjectClaimName c)))
     = Some ValidationErrorInvalidSubjectType) ∧
  result_code
    (validateSubject
       (token_of_claims
          [("iss", IString "https://idp.example"); ("aud", IString "client-1")]))
  = Some ValidationErrorInvalidSubjectType.
Proof.
  split; [|reflexivity].
  intros h c. pose proof (validateSubject_classify (mkToken h (delete subjectClaimName c))) as H.
  simpl in H. by rewrite lookup_delete_eq in H.
Qed.

(** ** Audience matching *)

Lemma getAudiences_classify (t : Token) :
  match index (Claims t) audiencesClaimName with
  | IString aud => getAudiences t = Ok [IString aud]
  | ISlice l => getAudiences t = Ok l
  | _ => result_code (getAudiences t) = Some ValidationErrorInvalidAudienceType
  end.
Proof. unfold getAudiences. by destruct (index _ _). Qed.

(** A scan that moves on over a prefix continues with what follows it. *)
Lemma audience_scan_app (c : string) (all pre rest : list iface) :
  Forall (passed_over c) pre →
  audience_scan c all (pre ++ rest) = audience_scan c all rest.
Proof.
  induction 1 as [|x pre (s & -> & Hs & Hc) _ IH]; [done|].
  simpl. rewrite (eqb_empty_false _ Hs).
  apply String.eqb_neq in Hc. by rewrite Hc.
Qed.

Lemma audience_scan_None (c : string) (all l : list iface) :
  audience_scan c all l = None ↔ Forall (passed_over c) l.
Proof.
  induction l as [|x l IH]; simpl.
  - split; [constructor|done].
  - destruct x; simpl; try (split; [discriminate|];
      intros H; inversion H as [|? ? (s' & Hx & _) _]; discriminate Hx).
    destruct (String.eqb s "") eqn:He.
    + apply String.eqb_eq in He. split; [discriminate|].
      intros H. inversion H as [|? ? (s' & Hx & Hs & _) _].
      inversion Hx; subst. done.
    + destruct (String.eqb s c) eqn:Hc.
      * apply String.eqb_eq in Hc. split; [discriminate|].
        intros H. inversion H as [|? ? (s' & Hx & _ & Hs) _].
        inversion Hx; subst. done.
      * apply String.eqb_neq in He, Hc. rewrite IH. split.
        -- intros H. constructor; [by exists s|done].
        -- intros H. by inversion H.
Qed.

Lemma audience_scan_Ok (c : string) (all l : list iface) (a : string) :
  audience_scan c all l = Some (Ok a) → a = c ∧ a ≠ "" ∧ IString a ∈ l.
Proof.
  induction l as [|x l IH]; simpl; [discriminate|].
  destruct x; simpl; try discriminate.
  destruct (String.eqb s "") eqn:He; [discriminate|].
  destruct (String.eqb s c) eqn:Hc.
  - intros [= <-]. apply String.eqb_eq in Hc. apply String.eqb_neq in He.
    repeat split; [done..|]. apply elem_of_cons. by left.
  - intros H. destruct (IH H) as (? & ? & ?). repeat split; [done..|].
    apply elem_of_cons. by right.
Qed.

Lemma audience_scan_Err (c : string) (all l : list iface) (e : error) :
  audience_scan c all l = Some (Err e) → error_status e = Some StatusUnauthorized.
Proof.
  induction l as [|x l IH]; simpl; [discriminate|].
  destruct x; simpl; try (by intros [= <-]).
  destruct (String.eqb s ""); [by intros [= <-]|].
  destruct (String.eqb s c); [discriminate|done].
Qed.

Lemma clientid_loop_Ok (ids : list string) (auds : list iface) (a : string) :
  clientid_loop ids auds = Some (Ok a) → a ≠ "" ∧ a ∈ ids ∧ IString a ∈ auds.
Proof.
  induction ids as [|c ids IH]; simpl; [discriminate|].
  destruct (audience_scan c auds auds) as [r|] eqn:Hs.
  - intros [= ->]. apply audience_scan_Ok in Hs as (-> & ? & ?).
    repeat split; [done| |done]. apply elem_of_cons. by left.
  - intros H. destruct (IH H) as (? & ? & ?). repeat split; [done| |done].
    apply elem_of_cons. by right.
Qed.

Lemma clientid_loop_Err (ids : list string) (auds : list iface) (e : error) :
  clientid_loop ids auds = Some (Err e) → error_status e = Some StatusUnauthorized.
Proof.
  induction ids as [|c ids IH]; simpl; [discriminate|].
  destruct (audience_scan c auds auds) as [r|] eqn:Hs; [|done].
  intros [= ->]. by eapply audience_scan_Err.
Qed.

(** On well-formed entries (non-empty strings) the scan for [c] is a
    membership test. *)
Lemma audience_scan_strings (c : string) (all : list iface) (ss : list string) :
  Forall (λ s, s ≠ "") ss →
  audience_scan c all (IString <$> ss) =
    if bool_decide (c ∈ ss) then Some (Ok c) else None.
Proof.
  induction 1 as [|s ss Hs _ IH]; [done|].
  rewrite fmap_cons. cbn [audience_scan assert_string].
  rewrite (eqb_empty_false _ Hs).
  destruct (String.eqb s c) eqn:Hc.
  - apply String.eqb_eq in Hc. subst s.
    rewrite bool_decide_eq_true_2; [done|]. apply elem_of_cons. by left.
  - apply String.eqb_neq in Hc. rewrite IH.
    destruct (decide (c ∈ ss)) as [Hin|Hin].
    + rewrite !bool_decide_eq_true_2; [done| |done]. apply elem_of_cons. by right.
    + rewrite !bool_decide_eq_false_2; [done| |done].
      intros [->|?]%elem_of_cons; done.
Qed.

Lemma clientid_loop_strings (ids ss : list string) :
  Forall (λ s, s ≠ "") ss →
  clientid_loop ids (IString <$> ss) =
    match find (λ c, bool_decide (c ∈ ss)) ids with
    | Some c => Some (Ok c)
    | None => None
    end.
Proof.
  intros Hss. induction ids as [|c ids IH]; [done|].
  simpl. rewrite (audience_scan_strings c _ ss Hss).
  by destruct (bool_decide (c ∈ ss)).
Qed.

Lemma clientid_loop_None (ids : list string) (auds : list iface) :
  (∀ c, c ∈ ids → Forall (passed_over c) auds) → clientid_loop ids auds = None.
Proof.
  induction ids as [|c ids IH]; [done|]. intros H. simpl.
  assert (Hc : audience_scan c auds auds = None).
  { apply audience_scan_None, H, elem_of_cons. by left. }
  rewrite Hc. apply IH. intros c' Hc'. apply H, elem_of_cons. by right.
Qed.

(** C5: a successful match returns a non-empty string that is one of the
    configured client identifiers and one of the token's audience entries;
    over well-formed audience entries the result is the first configured
    client identifier, in configured order, that occurs among the entries
    (AudienceNotFound when none does); so client identifiers [A; B] against
    audiences [B; A] match on [A]. *)
Theorem validateAudiences_order (jt : Token) (p : Provider) :
  (∀ a, validateAudiences jt p = Ok a →
        a ≠ "" ∧ a ∈ ClientIDs p ∧
        ∃ auds, getAudiences jt = Ok auds ∧ IString a ∈ auds) ∧
  (∀ ss, getAudiences jt = Ok (IString <$> ss) → Forall (λ s, s ≠ "") ss →
     match find (λ c, bool_decide (c ∈ ss)) (ClientIDs p) with
     | Some c => validateAudiences jt p = Ok c
     | None =>
       result_code (validateAudiences jt p) = Some ValidationErrorAudienceNotFound
     end) ∧
  (∀ A B, A ≠ "" → B ≠ "" →
     index (Claims jt) audiencesClaimName = ISlice [IString B; IString A] →
     ClientIDs p = [A; B] →
     validateAudiences jt p = Ok A).
Proof.
  assert (H2 : ∀ ss, getAudiences jt = Ok (IString <$> ss) →
     Forall (λ s, s ≠ "") ss →
     match find (λ c, bool_decide (c ∈ ss)) (ClientIDs p) with
     | Some c => validateAudiences jt p = Ok c
     | None =>
       result_code (validateAudiences jt p) = Some ValidationErrorAudienceNotFound
     end).
  { intros ss Hget Hss. unfold validateAudiences. rewrite Hget.
    rewrite (clientid_loop_strings _ ss Hss).
    by destruct (find _ (ClientIDs p)). }
  split; [|split; [exact H2|]].
  - intros a. unfold validateAudiences.
    destruct (getAudiences jt) as [auds|e] eqn:Hget; [|discriminate].
    destruct (clientid_loop (ClientIDs p) auds) as [r|] eqn:Hl; [|discriminate].
    intros ->. apply clientid_loop_Ok in Hl as (? & ? & ?).
    repeat split; [done..|]. by exists auds.
  - intros A B HA HB Haud Hids.
    pose proof (getAudiences_classify jt) as Hget. rewrite Haud in Hget.
    specialize (H2 [B; A] Hget). rewrite Hids in H2. simpl in H2.
    rewrite bool_decide_eq_true_2 in H2.
    + apply H2. by repeat constructor.
    + apply elem_of_cons. right. apply elem_of_cons. by left.
Qed.

(** C6, as amended: a scalar string claim becomes a one-element sequence; a
    claim that is neither a string nor a list gives InvalidAudienceType; for
    a provider whose first client identifier is [c], the first audience entry
    that is not a non-empty string other than [c] decides the result
    (InvalidAudienceType for a non-string, InvalidAudience for the empty
    string, success for [c] itself); and AudienceNotFound is the answer when
    no configured client identifier equals an entry and either every entry is
    a non-empty string or the provider has no client identifier. *)
Theorem validateAudiences_scan_order (jt : Token) (p : Provider) :
  (∀ s, index (Claims jt) audiencesClaimName = IString s →
        getAudiences jt = Ok [IString s]) ∧
  (is_string (index (Claims jt) audiencesClaimName) = false →
   snd (assert_slice (index (Claims jt) audiencesClaimName)) = false →
   result_code (validateAudiences jt p) = Some ValidationErrorInvalidAudienceType) ∧
  (∀ auds c cs pre x post,
     getAudiences jt = Ok auds → ClientIDs p = c :: cs →
     auds = pre ++ x :: post → Forall (passed_over c) pre →
     (is_string x = false →
      result_code (validateAudiences jt p) = Some ValidationErrorInvalidAudienceType) ∧
     (x = IString "" →
      result_code (validateAudiences jt p) = Some ValidationErrorInvalidAudience) ∧
     (x = IString c → c ≠ "" → validateAudiences jt p = Ok c)) ∧
  (∀ auds,
     getAudiences jt = Ok auds →
     ClientIDs p = [] ∨ Forall (λ x, ∃ s, x = IString s ∧ s ≠ "") auds →
     (∀ c, c ∈ ClientIDs p → IString c ∉ auds) →
     result_code (validateAudiences jt p) = Some ValidationErrorAudienceNotFound).
Proof.
  split; [|split; [|split]].
  - intros s Hs. pose proof (getAudiences_classify jt) as H. by rewrite Hs in H.
  - intros Hstr Hsl. unfold validateAudiences.
    pose proof (getAudiences_classify jt) as H.
    destruct (index (Claims jt) audiencesClaimName); try discriminate;
      by destruct (getAudiences jt).
  - intros auds c cs pre x post Hget Hids -> Hpre.
    unfold validateAudiences. rewrite Hget, Hids.
    cbn [clientid_loop]. rewrite (audience_scan_app c _ pre _ Hpre).
    split; [|split].
    + intros Hx. destruct x; simpl; try reflexivity. discriminate Hx.
    + by intros ->.
    + intros -> Hc. simpl. rewrite (eqb_empty_false _ Hc).
      by rewrite String.eqb_refl.
  - intros auds Hget Hwf Hno. unfold validateAudiences. rewrite Hget.
    rewrite clientid_loop_None; [done|].
    intros c Hc. destruct Hwf as [Hnil|Hwf].
    + rewrite Hnil in Hc. by apply elem_of_nil in Hc.
    + apply Forall_forall. intros x Hx.
      destruct (proj1 (Forall_forall _ _) Hwf x Hx) as (s & -> & Hs).
      exists s. repeat split; [done|]. intros ->. by apply (Hno c).
Qed.

(** C8: every error that issuer, audience or subject validation returns is a
    [ValidationError] of this package whose [HTTPStatus] is 401. *)
Theorem claim_errors_carry_401
    (jt : Token) (ps : list Provider) (p : Provider) (e : error) :
  validateIssuer jt ps = Err e ∨ getAudiences jt = Err e ∨
  validateAudiences jt p = Err e ∨ validateSubject jt = Err e →
  ∃ ve, e = OpenIDError ve ∧ HTTPStatus ve = 401%Z.
Proof.
  assert (Hst : ∀ e', error_status e' = Some StatusUnauthorized →
                      ∃ ve, e' = OpenIDError ve ∧ HTTPStatus ve = 401%Z).
  { intros [ve| |] [= H]; eauto. }
  assert (Hga : ∀ e', getAudiences jt = Err e' →
                      error_status e' = Some StatusUnauthorized).
  { unfold getAudiences. destruct (index _ _); simpl; by intros e' [= <-]. }
  intros [H|[H|[H|H]]]; apply Hst.
  - unfold validateIssuer in H. destruct (getIssuer jt); simpl in H;
      try (by injection H as <-).
    destruct (String.eqb s ""); [by injection H as <-|].
    destruct (issuer_loop _ _ ps); [discriminate|]. by injection H as <-.
  - by apply Hga.
  - unfold validateAudiences in H.
    destruct (getAudiences jt) as [auds|e'] eqn:Hget.
    + destruct (clientid_loop (ClientIDs p) auds) as [r|] eqn:Hl.
      * subst r. by eapply clientid_loop_Err.
      * by injection H as <-.
    + injection H as <-. by apply Hga.
  - unfold validateSubject in H. destruct (getSubject jt); simpl in H;
      try (by injection H as <-).
    destruct (String.eqb s ""); [by injection H as <-|discriminate].
Qed.

(** ** Key resolution *)

Lemma signature_invalid_spec (e : error) :
  signature_invalid e = true ↔
  ∃ inner errors, e = JwtValidationError inner errors ∧ Z.testbit errors 2 = true.
Proof.
  destruct e as [ve|inner errors|msg]; cbn [signature_invalid].
  - split; [discriminate|]. by intros (? & ? & ? & _).
  - rewrite negb_true_iff, Z.eqb_neq. split.
    + intros Hland. exists inner, errors. split; [done|].
      destruct (Z.testbit errors 2) eqn:Hb; [done|]. exfalso. apply Hland.
      apply Z.bits_inj'. intros n Hn. rewrite Z.land_spec, Z.bits_0.
      unfold ValidationErrorSignatureInvalid.
      destruct (Z.eq_dec n 2%Z) as [->|Hne].
      * by rewrite Hb.
      * rewrite Z.shiftl_1_l, Z.pow2_bits_false by lia. apply andb_false_r.
    + intros (inner' & errors' & Heq & Hb) Hland.
      inversion Heq; subst inner' errors'.
      assert (Ht : Z.testbit (Z.land errors ValidationErrorSignatureInvalid) 2 = true).
      { rewrite Z.land_spec, Hb. reflexivity. }
      rewrite Hland in Ht. discriminate Ht.
  - split; [discriminate|]. by intros (? & ? & ? & _).
Qed.

(** Closes the side cases of a case analysis: splits, decomposes and
    compares the equations at hand. *)
Ltac settle :=
  repeat (intros; simplify_eq; try done; try lia; try congruence;
          match goal with
          | |- _ ∧ _ => split
          | |- _ ↔ _ => split
          | H : _ ∧ _ |- _ => destruct H
          | H : ∃ _, _ |- _ => destruct H
          end).

Section ValidatorProperties.

Context {Request : Type}.
Variable providers_validate : list Provider → option error.
Variable jwtErrorToOpenIDError : error → error.

(** The first-pass callback, call by call. *)
Lemma run_getSigningKey {S : Type} (h : handler collabE S) (s : S)
    (r : Request) (jt : Token) :
  run h (getSigningKey providers_validate r jt) s =
    let '((provs, perr), s1) := h _ ProvGetter s in
    let c1 := Call ProvGetter (provs, perr) in
    let stop e := (Returned (None, Some e), [c1], s1) in
    match perr with
    | Some e => stop e
    | None =>
      match providers_validate provs with
      | Some e => stop e
      | None =>
        match validateIssuer jt provs with
        | Err e => stop e
        | Ok p =>
          match validateAudiences jt p with
          | Err e => stop e
          | Ok _ =>
            match validateSubject jt with
            | Err e => stop e
            | Ok _ =>
              let get := KeyGetter_getSigningKey r (Issuer p) (getTokenKid jt) in
              let '((key, kerr), s2) := h _ get s1 in
              let c2 := Call get (key, kerr) in
              match kerr with
              | Some e => (Returned (None, Some e), [c1; c2], s2)
              | None =>
                let '(x, s3) := h _ (RsaParser key) s2 in
                (Returned x, [c1; c2; Call (RsaParser key) x], s3)
              end
            end
          end
        end
      end
    end.
Proof.
  unfold getSigningKey. simpl.
  destruct (h _ ProvGetter s) as [[provs [e|]] s1]; simpl; [done|].
  destruct (providers_validate provs); simpl; [done|].
  destruct (validateIssuer jt provs) as [p|]; simpl; [|done].
  destruct (validateAudiences jt p); simpl; [|done].
  destruct (validateSubject jt); simpl; [|done].
  destruct (h _ (KeyGetter_getSigningKey r (Issuer p) (getTokenKid jt)) s1)
    as [[key [e|]] s2]; simpl; [done|].
  by destruct (h _ (RsaParser key) s2).
Qed.

(** C2: the first-pass callback first fetches the provider list, then
    validates the list, then matches the issuer, then the audience, then
    validates the subject, and only then asks the key resolver (once, for
    the matched provider's issuer and the token's key identifier) and decodes
    the key; the first error met is returned and nothing further is called.
    The key resolver's [getSigningKey] is called at most once, and exactly
    once when the list and the three claims passed. *)
Theorem getSigningKey_fixed_order {S : Type} (h : handler collabE S) (s : S)
    (r : Request) (jt : Token)
    (o : outcome keyfunc_result) (tr : list (interaction collabE)) (s' : S) :
  run h (getSigningKey providers_validate r jt) s = (o, tr, s') →
  ∃ provs perr tl,
    tr = Call ProvGetter (provs, perr) :: tl ∧
    count_calls is_provGetter tr = 1 ∧
    (count_calls is_getSigningKey tr ≤ 1)%nat ∧
    (count_calls is_getSigningKey tr = 1 ↔
       perr = None ∧ providers_validate provs = None ∧
       ∃ p a sub, validateIssuer jt provs = Ok p ∧
                  validateAudiences jt p = Ok a ∧ validateSubject jt = Ok sub) ∧
    (∀ e, perr = Some e → o = Returned (None, Some e) ∧ tl = []) ∧
    (perr = None →
     (∀ e, providers_validate provs = Some e →
           o = Returned (None, Some e) ∧ tl = []) ∧
     (providers_validate provs = None →
      (∀ e, validateIssuer jt provs = Err e →
            o = Returned (None, Some e) ∧ tl = []) ∧
      (∀ p, validateIssuer jt provs = Ok p →
       (∀ e, validateAudiences jt p = Err e →
             o = Returned (None, Some e) ∧ tl = []) ∧
       (∀ a, validateAudiences jt p = Ok a →
        (∀ e, validateSubject jt = Err e →
              o = Returned (None, Some e) ∧ tl = []) ∧
        (∀ sub, validateSubject jt = Ok sub →
         ∃ key kerr tl',
           tl = Call (KeyGetter_getSigningKey r (Issuer p) (getTokenKid jt))
                     (key, kerr) :: tl' ∧
           match kerr with
           | Some e => o = Returned (None, Some e) ∧ tl' = []
           | None => ∃ x, tl' = [Call (RsaParser key) x] ∧ o = Returned x
           end))))).
Proof.
  rewrite run_getSigningKey.
  destruct (h _ ProvGetter s) as [[provs perr] s1]. cbv zeta.
  intros Hrun. exists provs, perr.
  destruct perr as [e0|].
  { inversion Hrun; subst. exists []. unfold count_calls. simpl.
    settle. }
  destruct (providers_validate provs) as [e0|] eqn:Hpv.
  { inversion Hrun; subst. exists []. unfold count_calls. simpl.
    settle. }
  destruct (validateIssuer jt provs) as [p|e0] eqn:Hiss; cycle 1.
  { inversion Hrun; subst. exists []. unfold count_calls. simpl.
    settle. }
  destruct (validateAudiences jt p) as [a|e0] eqn:Haud; cycle 1.
  { inversion Hrun; subst. exists []. unfold count_calls. simpl.
    settle. }
  destruct (validateSubject jt) as [sub|e0] eqn:Hsub; cycle 1.
  { inversion Hrun; subst. exists []. unfold count_calls. simpl.
    settle. }
  destruct (h _ (KeyGetter_getSigningKey r (Issuer p) (getTokenKid jt)) s1)
    as [[key kerr] s2].
  assert (Hall : ∃ p0 a0 sub0, Ok p = Ok p0 ∧ validateAudiences jt p0 = Ok a0 ∧
                               Ok sub = Ok sub0).
  { by exists p, a, sub. }
  destruct kerr as [e0|].
  - inversion Hrun; subst. eexists. unfold count_calls. simpl.
    split; [done|]. split; [done|]. split; [lia|]. split; [done|].
    split; [done|]. intros _. split; [congruence|]. intros _.
    split; [congruence|]. intros p' [= <-]. split; [congruence|].
    intros a' _. split; [congruence|]. intros sub' _.
    by exists key, (Some e0), [].
  - destruct (h _ (RsaParser key) s2) as [x s3].
    inversion Hrun; subst. eexists. unfold count_calls. simpl.
    split; [done|]. split; [done|]. split; [lia|]. split; [done|].
    split; [done|]. intros _. split; [congruence|]. intros _.
    split; [congruence|]. intros p' [= <-]. split; [congruence|].
    intros a' _. split; [congruence|]. intros sub' _.
    exists key, None, [Call (RsaParser key) x]. split; [done|]. by exists x.
Qed.

(** The renewal callback, call by call. *)
Lemma run_renewAndGetSigningKey {S : Type} (h : handler collabE S) (s : S)
    (r : Request) (jt : Token) :
  run h (renewAndGetSigningKey r jt) s =
    match index (Claims jt) issuerClaimName with
    | IString iss =>
      let flush := KeyGetter_flushCachedSigningKeys iss in
      let '(ferr, s1) := h _ flush s in
      let c1 := Call flush ferr in
      match ferr with
      | Some e => (Returned (None, Some e), [c1], s1)
      | None =>
        let get := KeyGetter_getSigningKey r iss (getTokenKid jt) in
        let '((key, kerr), s2) := h _ get s1 in
        let c2 := Call get (key, kerr) in
        match kerr with
        | Some e => (Returned (None, Some e), [c1; c2], s2)
        | None =>
          let '(x, s3) := h _ (RsaParser key) s2 in
          (Returned x, [c1; c2; Call (RsaParser key) x], s3)
        end
      end
    | _ => (Panicked, [], s)
    end.
Proof.
  unfold renewAndGetSigningKey.
  destruct (index (Claims jt) issuerClaimName) as [|iss| | | |]; try done.
  simpl.
  destruct (h _ (KeyGetter_flushCachedSigningKeys iss) s) as [[e|] s1];
    simpl; [done|].
  destruct (h _ (KeyGetter_getSigningKey r iss (getTokenKid jt)) s1)
    as [[key [e|]] s2]; simpl; [done|].
  by destruct (h _ (RsaParser key) s2).
Qed.

(** Membership in a short trace, case by case. *)
Ltac trace_cases H :=
  repeat (apply elem_of_cons in H as [->|H]); [..|by apply elem_of_nil in H].

(** C9: on the first pass and on renewal alike, an error that the provider
    source, the key resolver ([getSigningKey] or [flushCachedSigningKeys]) or
    the key decoder answers with is the error the callback returns: the same
    value, not wrapped and not replaced. *)
Theorem collaborator_errors_unmodified {S : Type} (h : handler collabE S) (s : S)
    (r : Request) (jt : Token)
    (o : outcome keyfunc_result) (tr : list (interaction collabE)) (s' : S)
    (i : interaction collabE) (e : error) :
  run h (getSigningKey providers_validate r jt) s = (o, tr, s') ∨
  run h (renewAndGetSigningKey r jt) s = (o, tr, s') →
  i ∈ tr → response_error i = Some e →
  ∃ k, o = Returned (k, Some e).
Proof.
  intros [Hrun|Hrun] Hi He.
  - rewrite run_getSigningKey in Hrun.
    destruct (h _ ProvGetter s) as [[provs perr] s1]. cbv zeta in Hrun.
    destruct perr as [e0|].
    { inversion Hrun; subst. trace_cases Hi. simpl in He. simplify_eq. eauto. }
    destruct (providers_validate provs) as [e0|].
    { inversion Hrun; subst. trace_cases Hi. discriminate He. }
    destruct (validateIssuer jt provs) as [p|e0]; cycle 1.
    { inversion Hrun; subst. trace_cases Hi. discriminate He. }
    destruct (validateAudiences jt p) as [a|e0]; cycle 1.
    { inversion Hrun; subst. trace_cases Hi. discriminate He. }
    destruct (validateSubject jt) as [sub|e0]; cycle 1.
    { inversion Hrun; subst. trace_cases Hi. discriminate He. }
    destruct (h _ (KeyGetter_getSigningKey r (Issuer p) (getTokenKid jt)) s1)
      as [[key [e0|]] s2].
    + inversion Hrun; subst. trace_cases Hi; simpl in He; [discriminate He|].
      simplify_eq. eauto.
    + destruct (h _ (RsaParser key) s2) as [[k rerr] s3].
      inversion Hrun; subst. trace_cases Hi; simpl in He; try discriminate He.
      simplify_eq. eauto.
  - rewrite run_renewAndGetSigningKey in Hrun.
    destruct (index (Claims jt) issuerClaimName) as [|iss| | | |];
      try (inversion Hrun; subst; by apply elem_of_nil in Hi).
    cbv zeta in Hrun.
    destruct (h _ (KeyGetter_flushCachedSigningKeys iss) s) as [[e0|] s1].
    { inversion Hrun; subst. trace_cases Hi. simpl in He. simplify_eq. eauto. }
    destruct (h _ (KeyGetter_getSigningKey r iss (getTokenKid jt)) s1)
      as [[key [e0|]] s2].
    + inversion Hrun; subst. trace_cases Hi; simpl in He; [discriminate He|].
      simplify_eq. eauto.
    + destruct (h _ (RsaParser key) s2) as [[k rerr] s3].
      inversion Hrun; subst. trace_cases Hi; simpl in He; try discriminate He.
      simplify_eq. eauto.
Qed.

Lemma validateIssuer_Ok_string (jt : Token) (ps : list Provider) (p : Provider) :
  validateIssuer jt ps = Ok p →
  is_string (index (Claims jt) issuerClaimName) = true.
Proof.
  unfold validateIssuer, getIssuer, is_string.
  by destruct (index (Claims jt) issuerClaimName).
Qed.

Lemma getTokenKid_not_string (jt : Token) :
  is_string (index (Header jt) keyIDJwtHeaderName) = false → getTokenKid jt = "".
Proof.
  unfold getTokenKid, is_string.
  by destruct (index (Header jt) keyIDJwtHeaderName).
Qed.

(** The key resolver is asked on the first pass only for a token whose
    issuer matched a provider. *)
Lemma resolver_reached_issuer_valid {S : Type} (h : handler collabE S) (s : S)
    (r : Request) (jt : Token) :
  count_calls is_getSigningKey
    (run h (getSigningKey providers_validate r jt) s).1.2 = 1 →
  ∃ provs p, validateIssuer jt provs = Ok p.
Proof.
  rewrite run_getSigningKey.
  destruct (h _ ProvGetter s) as [[provs perr] s1]. cbv zeta.
  unfold count_calls.
  destruct perr as [e0|]; [simpl; discriminate|].
  destruct (providers_validate provs) as [e0|]; [simpl; discriminate|].
  destruct (validateIssuer jt provs) as [p|e0] eqn:Hiss; [|simpl; discriminate].
  intros _. by exists provs, p.
Qed.

(** C10: on a token whose issuer claim is a string the renewal callback does
    not panic: it goes on to flush the cache for that string; it panics only
    when the claim is not a string.  A token that passed the first-pass
    callback up to the key resolver has a string issuer claim, so renewal on
    it does not panic in any environment.  A [kid] header that is absent or
    not a string gives the empty key identifier, and both callbacks ask the
    key resolver for the key identifier that [getTokenKid] gives. *)
Theorem renewal_issuer_cast_safe (r : Request) (jt : Token) :
  (∀ iss, index (Claims jt) issuerClaimName = IString iss →
     ∃ k, renewAndGetSigningKey r jt =
          Vis (KeyGetter_flushCachedSigningKeys iss) k) ∧
  (∀ (S : Type) (h : handler collabE S) (s : S),
     (run h (renewAndGetSigningKey r jt) s).1.1 = Panicked ↔
     is_string (index (Claims jt) issuerClaimName) = false) ∧
  (∀ (S : Type) (h : handler collabE S) (s : S),
     count_calls is_getSigningKey
       (run h (getSigningKey providers_validate r jt) s).1.2 = 1 →
     ∀ (S' : Type) (h' : handler collabE S') (s0 : S'),
       (run h' (renewAndGetSigningKey r jt) s0).1.1 ≠ Panicked) ∧
  (Header jt !! keyIDJwtHeaderName = None → getTokenKid jt = "") ∧
  (is_string (index (Header jt) keyIDJwtHeaderName) = false →
   getTokenKid jt = "") ∧
  (∀ (S : Type) (h : handler collabE S) (s : S) i,
     i ∈ (run h (getSigningKey providers_validate r jt) s).1.2 ∨
     i ∈ (run h (renewAndGetSigningKey r jt) s).1.2 →
     is_getSigningKey i = true → requested_kid i = Some (getTokenKid jt)).
Proof.
  assert (Hpanic : ∀ (S : Type) (h : handler collabE S) (s : S),
     (run h (renewAndGetSigningKey r jt) s).1.1 = Panicked ↔
     is_string (index (Claims jt) issuerClaimName) = false).
  { intros S h s. rewrite run_renewAndGetSigningKey. unfold is_string.
    destruct (index (Claims jt) issuerClaimName) as [|iss| | | |]; try done.
    cbv zeta.
    destruct (h _ (KeyGetter_flushCachedSigningKeys iss) s) as [[e0|] s1];
      [done|].
    destruct (h _ (KeyGetter_getSigningKey r iss (getTokenKid jt)) s1)
      as [[key [e0|]] s2]; [done|].
    by destruct (h _ (RsaParser key) s2). }
  split; [|split; [exact Hpanic|split; [|split; [|split]]]].
  - intros iss Hiss. unfold renewAndGetSigningKey. rewrite Hiss. simpl.
    by eexists.
  - intros S h s Hcount S' h' s0 Hp. apply Hpanic in Hp.
    apply resolver_reached_issuer_valid in Hcount as (provs & p & Hiss).
    apply validateIssuer_Ok_string in Hiss. congruence.
  - intros Hkid. apply getTokenKid_not_string.
    by rewrite (index_None _ _ Hkid).
  - apply getTokenKid_not_string.
  - intros S h s i [Hi|Hi] Hget.
    + rewrite run_getSigningKey in Hi.
      destruct (h _ ProvGetter s) as [[provs perr] s1]. cbv zeta in Hi.
      destruct perr as [e0|]; [simpl in Hi; trace_cases Hi; discriminate Hget|].
      destruct (providers_validate provs) as [e0|];
        [simpl in Hi; trace_cases Hi; discriminate Hget|].
      destruct (validateIssuer jt provs) as [p|e0];
        [|simpl in Hi; trace_cases Hi; discriminate Hget].
      destruct (validateAudiences jt p) as [a|e0];
        [|simpl in Hi; trace_cases Hi; discriminate Hget].
      destruct (validateSubject jt) as [sub|e0];
        [|simpl in Hi; trace_cases Hi; discriminate Hget].
      destruct (h _ (KeyGetter_getSigningKey r (Issuer p) (getTokenKid jt)) s1)
        as [[key [e0|]] s2].
      * simpl in Hi. trace_cases Hi; [discriminate Hget|done].
      * destruct (h _ (RsaParser key) s2) as [x s3].
        simpl in Hi. trace_cases Hi; [discriminate Hget|done|discriminate Hget].
    + rewrite run_renewAndGetSigningKey in Hi.
      destruct (index (Claims jt) issuerClaimName) as [|iss| | | |];
        try (by apply elem_of_nil in Hi).
      cbv zeta in Hi.
      destruct (h _ (KeyGetter_flushCachedSigningKeys iss) s) as [[e0|] s1];
        [simpl in Hi; trace_cases Hi; discriminate Hget|].
      destruct (h _ (KeyGetter_getSigningKey r iss (getTokenKid jt)) s1)
        as [[key [e0|]] s2].
      * simpl in Hi. trace_cases Hi; [discriminate Hget|done].
      * destruct (h _ (RsaParser key) s2) as [x s3].
        simpl in Hi. trace_cases Hi; [discriminate Hget|done|discriminate Hget].
Qed.

(** ** The orchestrator *)

(** [validate], parse attempt by parse attempt. *)
Lemma run_validate {S : Type} (h : handler parserE S) (s : S)
    (r : Request) (t : string) :
  run h (validate providers_validate jwtErrorToOpenIDError r t) s =
    let first := JwtParser t (getSigningKey providers_validate r) in
    let second := JwtParser t (renewAndGetSigningKey r) in
    let finish (x : option Token * option error) :=
      match snd x with
      | Some e => (None, Some (jwtErrorToOpenIDError e))
      | None => (fst x, None)
      end in
    let '(x1, s1) := h _ first s in
    let once := (Returned (finish x1), [Call first x1], s1) in
    match snd x1 with
    | Some e =>
      if signature_invalid e then
        let '(x2, s2) := h _ second s1 in
        (Returned (finish x2), [Call first x1; Call second x2], s2)
      else once
    | None => once
    end.
Proof.
  unfold validate. simpl.
  destruct (h _ (JwtParser t (λ tok, getSigningKey providers_validate r tok)) s)
    as [[jt [e|]] s1]; simpl; [|done].
  destruct (signature_invalid e); simpl; [|done].
  by destruct (h _ (JwtParser t (λ tok, renewAndGetSigningKey r tok)) s1)
    as [[jt2 [e2|]] s2].
Qed.

(** C1: one call of [validate] invokes the parser once or twice.  The first
    attempt is given the first-pass callback.  A second attempt is made
    exactly when the first one answered with a parser validation error whose
    signature-invalid bit is set; it is given the renewal callback, and
    whatever it answers, a second signature mismatch included, is what
    [validate] ends with.  The renewal callback, on a token whose issuer
    claim is a string, first makes one flush call for that issuer; when the
    flush answers without error it makes exactly one key fetch for the same
    issuer and the token's key identifier, and when the fetch answers without
    error exactly one decoding of the fetched bytes, whose answer it returns;
    an error of the flush or of the fetch is returned at once and ends the
    calls.  It never asks for the provider list, and it depends on the token
    through the issuer claim and the key identifier only. *)
Theorem validate_retries_once {S : Type} (h : handler parserE S) (s : S)
    (r : Request) (t : string)
    (o : outcome (option Token * option error))
    (tr : list (interaction parserE)) (s' : S) :
  run h (validate providers_validate jwtErrorToOpenIDError r t) s = (o, tr, s') →
  (1 ≤ length tr ≤ 2)%nat ∧
  (∃ c1,
     parse_arguments c1 = (t, getSigningKey providers_validate r) ∧
     ((¬ signature_mismatch (parse_response c1) ∧ tr = [c1] ∧
       returns_answer jwtErrorToOpenIDError o (parse_response c1)) ∨
      (signature_mismatch (parse_response c1) ∧
       ∃ c2, tr = [c1; c2] ∧
             parse_arguments c2 = (t, renewAndGetSigningKey r) ∧
             returns_answer jwtErrorToOpenIDError o (parse_response c2)))) ∧
  (∀ (jt : Token) (iss : string) (S' : Type) (h' : handler collabE S') (s0 : S'),
     index (Claims jt) issuerClaimName = IString iss →
     let tr' := (run h' (renewAndGetSigningKey r jt) s0).1.2 in
     let o' := (run h' (renewAndGetSigningKey r jt) s0).1.1 in
     (∃ ferr tl,
        tr' = Call (KeyGetter_flushCachedSigningKeys iss) ferr :: tl ∧
        match ferr with
        | Some e => tl = [] ∧ o' = Returned (None, Some e)
        | None =>
          ∃ key kerr tl',
            tl = Call (KeyGetter_getSigningKey r iss (getTokenKid jt))
                      (key, kerr) :: tl' ∧
            match kerr with
            | Some e => tl' = [] ∧ o' = Returned (None, Some e)
            | None => ∃ x, tl' = [Call (RsaParser key) x] ∧ o' = Returned x
            end
        end) ∧
     (∃ c tl, tr' = c :: tl ∧ flushed_issuer c = Some iss ∧
        ∀ i, i ∈ tl → is_getSigningKey i = true →
             key_request i = Some (r, iss, getTokenKid jt)) ∧
     count_calls is_flush tr' = 1 ∧
     (count_calls is_getSigningKey tr' ≤ 1)%nat ∧
     (count_calls is_rsaParser tr' ≤ 1)%nat ∧
     count_calls is_provGetter tr' = 0) ∧
  (∀ jt jt' : Token,
     index (Claims jt) issuerClaimName = index (Claims jt') issuerClaimName →
     getTokenKid jt = getTokenKid jt' →
     renewAndGetSigningKey r jt = renewAndGetSigningKey r jt').
Proof.
  rewrite run_validate. cbv zeta.
  destruct (h _ (JwtParser t (getSigningKey providers_validate r)) s)
    as [x1 s1] eqn:H1.
  intros Hrun.
  assert (Hmis : ∀ e, snd x1 = Some e →
            (signature_invalid e = true ↔ signature_mismatch x1)).
  { intros e He. rewrite signature_invalid_spec. unfold signature_mismatch.
    rewrite He. split.
    - intros (inner & errors & -> & Hb). by exists inner, errors.
    - intros (inner & errors & [= ->] & Hb). by exists inner, errors. }
  split; [|split; [|split]].
  - destruct (snd x1) as [e|]; [destruct (signature_invalid e)|].
    + destruct (h _ (JwtParser t (renewAndGetSigningKey r)) s1) as [x2 s2].
      inversion Hrun; subst. simpl. lia.
    + inversion Hrun; subst. simpl. lia.
    + inversion Hrun; subst. simpl. lia.
  - exists (Call (JwtParser t (getSigningKey providers_validate r)) x1).
    split; [done|]. simpl.
    destruct (snd x1) as [e|] eqn:He.
    + destruct (signature_invalid e) eqn:Hsig.
      * destruct (h _ (JwtParser t (renewAndGetSigningKey r)) s1) as [x2 s2].
        inversion Hrun; subst. right. split; [by apply (Hmis e)|].
        exists (Call (JwtParser t (renewAndGetSigningKey r)) x2).
        repeat split. unfold returns_answer. simpl. by destruct (snd x2).
      * inversion Hrun; subst. left. split.
        -- intros Hm. apply (Hmis e) in Hm; [congruence|done].
        -- split; [done|]. unfold returns_answer. by rewrite He.
    + inversion Hrun; subst. left. split.
      * intros (inner & errors & Hx & _). congruence.
      * split; [done|]. unfold returns_answer. by rewrite He.
  - intros jt iss S' h' s0 Hiss. rewrite run_renewAndGetSigningKey, Hiss.
    cbv zeta.
    destruct (h' _ (KeyGetter_flushCachedSigningKeys iss) s0) as [[e0|] s1'].
    { unfold count_calls. simpl. split; [by exists (Some e0), []|].
      repeat split; try lia.
      eexists _, []. repeat split. intros i Hi. by apply elem_of_nil in Hi. }
    destruct (h' _ (KeyGetter_getSigningKey r iss (getTokenKid jt)) s1')
      as [[key [e0|]] s2'].
    { unfold count_calls. simpl. split.
      { eexists None, _. split; [reflexivity|]. by exists key, (Some e0), []. }
      repeat split; try lia.
      eexists _, _. repeat split. intros i Hi Hget. trace_cases Hi. done. }
    destruct (h' _ (RsaParser key) s2') as [x s3'].
    unfold count_calls. simpl. split.
    { eexists None, _. split; [reflexivity|].
      exists key, None, [Call (RsaParser key) x]. split; [done|]. by exists x. }
    repeat split; try lia.
    eexists _, _. repeat split. intros i Hi Hget.
    trace_cases Hi; [done|discriminate Hget].
  - intros jt jt' Hiss Hkid. unfold renewAndGetSigningKey.
    by rewrite Hiss, Hkid.
Qed.

End ValidatorProperties.

(** ** The scenarios of the specification *)

Example scenario_claims_accepted :
  validateIssuer example_token [example_provider] = Ok example_provider ∧
  validateAudiences example_token example_provider = Ok "client-1" ∧
  validateSubject example_token = Ok "user-42".
Proof. repeat split. Qed.

Example scenario_audience_not_found :
  result_code
    (validateAudiences
       (token_of_claims
          [("iss", IString "https://idp.example");
           ("aud", ISlice [IString "client-9"]); ("sub", IString "user-42")])
       example_provider)
  = Some ValidationErrorAudienceNotFound.
Proof. reflexivity. Qed.

Example scenario_first_pass_calls :
  run (fixed_env [example_provider] None None None None)
      (getSigningKey providers_validate_spec tt example_token) 0
  = (Returned (Some (mkPublicKey 3233 17), None),
     [Call ProvGetter ([example_provider], None);
      Call (KeyGetter_getSigningKey tt "https://idp.example" "") ([], None);
      Call (RsaParser []) (Some (mkPublicKey 3233 17), None)],
     3).
Proof. reflexivity. Qed.

Example scenario_renewal_calls :
  run (fixed_env [] None None None None)
      (renewAndGetSigningKey tt example_token) 0
  = (Returned (Some (mkPublicKey 3233 17), None),
     [Call (KeyGetter_flushCachedSigningKeys "https://idp.example") None;
      Call (KeyGetter_getSigningKey tt "https://idp.example" "") ([], None);
      Call (RsaParser []) (Some (mkPublicKey 3233 17), None)],
     3).
Proof. reflexivity. Qed.

Example scenario_renewal_panics_without_issuer :
  run (fixed_env [] None None None None)
      (renewAndGetSigningKey tt (token_of_claims [("sub", IString "user-42")])) 0
  = (Panicked, [], 0).
Proof. reflexivity. Qed.

(** ** The theorems at concrete inputs *)

Lemma validate_retries_once_witness :
  ∃ o tr n,
    run (stale_key_parser example_token)
        (validate providers_validate_spec (λ e, e) tt "raw.jwt.token") 0
    = (o, tr, n) ∧
    (1 ≤ length tr ≤ 2)%nat ∧ n = 2 ∧ o = Returned (Some example_token, None).
Proof.
  eexists _, _, _. split; [reflexivity|].
  split; [|split; reflexivity].
  exact (proj1 (validate_retries_once providers_validate_spec (λ e, e)
                  (stale_key_parser example_token) 0 tt "raw.jwt.token"
                  _ _ _ eq_refl)).
Defined.

Lemma getSigningKey_fixed_order_witness :
  ∃ o tr n,
    run (fixed_env [example_provider] None None None None)
        (getSigningKey providers_validate_spec tt example_token) 0
    = (o, tr, n) ∧
    (∃ provs perr tl, tr = Call ProvGetter (provs, perr) :: tl ∧
                      count_calls is_provGetter tr = 1) ∧
    count_calls is_getSigningKey tr = 1 ∧ n = 3.
Proof.
  eexists _, _, _. split; [vm_compute; reflexivity|].
  split; [|split; reflexivity].
  destruct (getSigningKey_fixed_order providers_validate_spec
              (fixed_env [example_provider] None None None None) 0 tt
              example_token _ _ _ eq_refl)
    as (provs & perr & tl & Htr & Hprov & _).
  by exists provs, perr, tl.
Defined.

Lemma validateIssuer_first_match_witness :
  validateIssuer google_token [mkProvider "https://accounts.google.com" ["client-1"]]
  = Ok (mkProvider "https://accounts.google.com" ["client-1"]).
Proof.
  refine (proj1 (proj2 (proj2
    (validateIssuer_first_match google_token "accounts.google.com" eq_refl _)))
    eq_refl _).
  discriminate.
Defined.

Lemma validateAudiences_order_witness :
  validateAudiences
    (token_of_claims [("aud", ISlice [IString "B"; IString "A"])])
    (mkProvider "https://idp.example" ["A"; "B"])
  = Ok "A".
Proof.
  refine (proj2 (proj2
    (validateAudiences_order
       (token_of_claims [("aud", ISlice [IString "B"; IString "A"])])
       (mkProvider "https://idp.example" ["A"; "B"])))
    "A" "B" _ _ eq_refl eq_refl); discriminate.
Defined.

(** C6, refuted as stated: the audience list of [mixed_audience_token] has an
    element that is not a string, and audience validation succeeds on it. *)
Lemma validateAudiences_mixed_list_accepted :
  getAudiences mixed_audience_token = Ok [IString "client-1"; IFloat64 42] ∧
  is_string (IFloat64 42) = false ∧
  validateAudiences mixed_audience_token example_provider = Ok "client-1".
Proof. repeat split. Qed.

Lemma validateAudiences_scan_order_witness :
  result_code
    (validateAudiences
       (token_of_claims [("aud", ISlice [IString "client-9"; IFloat64 42])])
       example_provider)
  = Some ValidationErrorInvalidAudienceType.
Proof.
  refine (proj1 (proj1 (proj2 (proj2
    (validateAudiences_scan_order
       (token_of_claims [("aud", ISlice [IString "client-9"; IFloat64 42])])
       example_provider)))
    [IString "client-9"; IFloat64 42] "client-1" [] [IString "client-9"]
    (IFloat64 42) [] eq_refl eq_refl eq_refl _) eq_refl).
  constructor; [|constructor]. exists "client-9". repeat split; discriminate.
Defined.

Lemma claim_errors_carry_401_witness :
  ∃ ve, validateSubject (token_of_claims []) = Err (OpenIDError ve) ∧
        HTTPStatus ve = 401%Z.
Proof.
  destruct (claim_errors_carry_401 (token_of_claims []) [] example_provider _
              (or_intror (or_intror (or_intror eq_refl))))
    as (ve & Heq & Hst).
  exists ve. split; [|exact Hst]. rewrite <- Heq. reflexivity.
Defined.

Lemma collaborator_errors_unmodified_witness :
  ∃ o tr n,
    run (fixed_env [example_provider] None
           (Some (OtherError "key server unreachable")) None None)
        (getSigningKey providers_validate_spec tt example_token) 0
    = (o, tr, n) ∧
    ∃ k, o = Returned (k, Some (OtherError "key server unreachable")).
Proof.
  eexists _, _, _. split; [vm_compute; reflexivity|].
  refine (collaborator_errors_unmodified providers_validate_spec
            (fixed_env [example_provider] None
               (Some (OtherError "key server unreachable")) None None)
            0 tt example_token _ _ _
            (Call (KeyGetter_getSigningKey tt "https://idp.example" "")
                  ([], Some (OtherError "key server unreachable")))
            _ (or_introl eq_refl) _ eq_refl).
  apply elem_of_cons. right. apply elem_of_cons. by left.
Defined.

Lemma renewal_issuer_cast_safe_witness :
  ∃ k, renewAndGetSigningKey tt example_token =
       Vis (KeyGetter_flushCachedSigningKeys "https://idp.example") k.
Proof.
  exact (proj1 (renewal_issuer_cast_safe providers_validate_spec tt example_token)
           "https://idp.example" eq_refl).
Defined.

(** * Further properties *)

(** ** Issuer matching over provider lists *)

Lemma issuer_loop_app (ti gi : string) (ps qs : list Provider) :
  issuer_loop ti gi (ps ++ qs) =
    match issuer_loop ti gi ps with
    | Some p => Some p
    | None => issuer_loop ti gi qs
    end.
Proof.
  induction ps as [|q ps IH]; [done|]. simpl.
  by destruct (String.eqb ti (Issuer q) || String.eqb gi (Issuer q)).
Qed.

Lemma validateIssuer_Ok_inv (jt : Token) (ps : list Provider) (p : Provider) :
  validateIssuer jt ps = Ok p →
  ∃ ti, Claims jt !! issuerClaimName = Some (IString ti) ∧ ti ≠ "" ∧
        issuer_loop ti
          (if String.eqb ti "accounts.google.com" then "https://" +:+ ti else ti)
          ps = Some p.
Proof.
  unfold validateIssuer, getIssuer, index.
  destruct (Claims jt !! issuerClaimName) as [[|ti| | | |]|]; simpl;
    try discriminate.
  destruct (String.eqb ti "") eqn:He; [discriminate|].
  apply String.eqb_neq in He.
  destruct (issuer_loop _ _ ps) as [p'|] eqn:Hl; [|discriminate].
  intros [= ->]. by exists ti.
Qed.

(** X1: a provider that [validateIssuer] returns is an element of the list it
    was given, and the token's issuer claim is then a non-empty string that
    equals the provider's [Issuer] verbatim or through the one alias; on an
    empty provider list it therefore never succeeds. *)
Theorem validateIssuer_sound (jt : Token) (ps : list Provider) (p : Provider) :
  validateIssuer jt ps = Ok p →
  p ∈ ps ∧ ps ≠ [] ∧
  ∃ ti, Claims jt !! issuerClaimName = Some (IString ti) ∧ ti ≠ "" ∧
        issuer_matches ti p.
Proof.
  intros H. apply validateIssuer_Ok_inv in H as (ti & Hiss & Hne & Hl).
  apply issuer_loop_Some in Hl as (ps1 & ps2 & -> & Hp & _).
  split; [|split].
  - apply elem_of_app. right. apply elem_of_cons. by left.
  - by destruct ps1.
  - exists ti. repeat split; [done..|]. by apply loop_test_matches.
Qed.

(** X2: issuer matching over a concatenated provider list is issuer matching
    over the first part, falling through to the second part exactly when the
    first answers IssuerNotFound: a success and the two claim-shape errors
    are not changed by providers registered later. *)
Theorem validateIssuer_app (jt : Token) (ps qs : list Provider) :
  validateIssuer jt (ps ++ qs) =
    match result_code (validateIssuer jt ps) with
    | Some ValidationErrorIssuerNotFound => validateIssuer jt qs
    | _ => validateIssuer jt ps
    end.
Proof.
  unfold validateIssuer, getIssuer, index.
  destruct (Claims jt !! issuerClaimName) as [[|ti| | | |]|]; simpl;
    try reflexivity.
  destruct (String.eqb ti ""); [reflexivity|].
  rewrite issuer_loop_app.
  by destruct (issuer_loop _ _ ps).
Qed.

(** ** Audience matching: normal forms, edges, client lists *)

Lemma clientid_loop_app (ids ids' : list string) (auds : list iface) :
  clientid_loop (ids ++ ids') auds =
    match clientid_loop ids auds with
    | Some r => Some r
    | None => clientid_loop ids' auds
    end.
Proof.
  induction ids as [|c ids IH]; [done|]. simpl.
  by destruct (audience_scan c auds auds).
Qed.

(** X3: a scalar audience claim and the one-element list holding the same
    string are validated alike, for every provider, down to the error
    returned. *)
Theorem validateAudiences_scalar_as_list (jt jt' : Token) (s : string) (p : Provider) :
  index (Claims jt) audiencesClaimName = IString s →
  index (Claims jt') audiencesClaimName = ISlice [IString s] →
  validateAudiences jt p = validateAudiences jt' p.
Proof.
  intros H H'. unfold validateAudiences.
  pose proof (getAudiences_classify jt) as Hg. rewrite H in Hg.
  pose proof (getAudiences_classify jt') as Hg'. rewrite H' in Hg'.
  by rewrite Hg, Hg'.
Qed.

(** X4: over audience entries that are all non-empty strings, validation
    succeeds exactly when some configured client identifier is among the
    entries; so whether it succeeds does not depend on the order of the
    client identifiers. *)
Theorem validateAudiences_succeeds_iff_common (jt : Token) (p : Provider)
    (ss : list string) :
  getAudiences jt = Ok (IString <$> ss) → Forall (λ s, s ≠ "") ss →
  ((∃ a, validateAudiences jt p = Ok a) ↔ ∃ c, c ∈ ClientIDs p ∧ c ∈ ss) ∧
  (∀ p', ClientIDs p' ≡ₚ ClientIDs p →
         ((∃ a, validateAudiences jt p' = Ok a) ↔
          (∃ a, validateAudiences jt p = Ok a))).
Proof.
  intros Hget Hss.
  assert (Hiff : ∀ q, (∃ a, validateAudiences jt q = Ok a) ↔
                      ∃ c, c ∈ ClientIDs q ∧ c ∈ ss).
  { intros q. unfold validateAudiences. rewrite Hget.
    rewrite (clientid_loop_strings _ ss Hss).
    destruct (find _ (ClientIDs q)) as [c|] eqn:Hf.
    - apply find_some in Hf as [Hin Hc]. apply bool_decide_eq_true in Hc.
      split; [|by eexists]. intros _. exists c. split; [|done].
      by apply list_elem_of_In.
    - split; [by intros [a Ha]|]. intros (c & Hin & Hc). exfalso.
      apply list_elem_of_In in Hin.
      pose proof (find_none _ _ Hf c Hin) as Hn. simpl in Hn.
      by apply bool_decide_eq_false in Hn. }
  split; [apply Hiff|].
  intros p' Hperm. rewrite !Hiff. split.
  - intros (c & Hc & Hs). exists c. split; [|done]. by rewrite <- Hperm.
  - intros (c & Hc & Hs). exists c. split; [|done]. by rewrite Hperm.
Qed.

(** X5: client identifiers configured after the existing ones can change a
    verdict of AudienceNotFound only: a success keeps its matched
    identifier, and every other error is returned as before. *)
Theorem validateAudiences_more_clients (jt : Token) (p p' : Provider)
    (more : list string) :
  ClientIDs p' = ClientIDs p ++ more →
  result_code (validateAudiences jt p) ≠ Some ValidationErrorAudienceNotFound →
  validateAudiences jt p' = validateAudiences jt p.
Proof.
  intros Hids. unfold validateAudiences.
  destruct (getAudiences jt) as [auds|e]; [|done].
  rewrite Hids, clientid_loop_app.
  destruct (clientid_loop (ClientIDs p) auds) as [r|]; [done|].
  simpl. congruence.
Qed.

(** X6: the edges of the audience claim.  A token without the claim is
    answered with InvalidAudienceType and an empty audience list with
    AudienceNotFound, whatever the provider; the empty string is answered
    with InvalidAudience by a provider that has a client identifier and with
    AudienceNotFound by one that has none. *)
Theorem validateAudiences_edges (jt : Token) (p : Provider) :
  (Claims jt !! audiencesClaimName = None →
   result_code (validateAudiences jt p) = Some ValidationErrorInvalidAudienceType) ∧
  (index (Claims jt) audiencesClaimName = ISlice [] →
   result_code (validateAudiences jt p) = Some ValidationErrorAudienceNotFound) ∧
  (index (Claims jt) audiencesClaimName = IString "" →
   result_code (validateAudiences jt p) =
     Some (match ClientIDs p with
           | [] => ValidationErrorAudienceNotFound
           | _ :: _ => ValidationErrorInvalidAudience
           end)).
Proof.
  pose proof (getAudiences_classify jt) as Hg. unfold validateAudiences.
  split; [|split].
  - intros H. rewrite (index_None _ _ H) in Hg.
    by destruct (getAudiences jt).
  - intros H. rewrite H in Hg. rewrite Hg.
    assert (Hl : clientid_loop (ClientIDs p) [] = None).
    { induction (ClientIDs p) as [|c ids IH]; [done|]. simpl. exact IH. }
    by rewrite Hl.
  - intros H. rewrite H in Hg. rewrite Hg. by destruct (ClientIDs p).
Qed.

(** X14: over audience entries that are all non-empty strings, the order of
    the entries in the token does not matter: two tokens whose entries are
    permutations of each other get the same matched client identifier, or
    both get AudienceNotFound. *)
Theorem validateAudiences_entry_order (jt jt' : Token) (p : Provider)
    (ss ss' : list string) :
  getAudiences jt = Ok (IString <$> ss) →
  getAudiences jt' = Ok (IString <$> ss') →
  Forall (λ s, s ≠ "") ss → ss ≡ₚ ss' →
  result_value (validateAudiences jt p) = result_value (validateAudiences jt' p) ∧
  result_code (validateAudiences jt p) = result_code (validateAudiences jt' p).
Proof.
  intros Hget Hget' Hss Hperm.
  assert (Hss' : Forall (λ s, s ≠ "") ss').
  { apply Forall_forall. intros x Hx.
    pose proof (proj1 (Forall_forall _ _) Hss x) as Hx'. simpl in Hx'.
    apply Hx'. by rewrite Hperm. }
  unfold validateAudiences. rewrite Hget, Hget'.
  rewrite (clientid_loop_strings _ ss Hss), (clientid_loop_strings _ ss' Hss').
  assert (Hf : find (λ c, bool_decide (c ∈ ss)) (ClientIDs p) =
               find (λ c, bool_decide (c ∈ ss')) (ClientIDs p)).
  { induction (ClientIDs p) as [|c ids IH]; [done|]. simpl.
    rewrite IH. by rewrite (bool_decide_ext (c ∈ ss) (c ∈ ss'))
      by (by rewrite Hperm). }
  rewrite Hf.
  destruct (find (λ c, bool_decide (c ∈ ss')) (ClientIDs p)); split; reflexivity.
Qed.

(** X15: a provider registered after another one with the same [Issuer] is
    dead: removing it from the list changes no answer of issuer matching, so
    its client identifiers are never the ones a token is checked against. *)
Theorem validateIssuer_duplicate_shadowed (jt : Token)
    (ps1 ps2 : list Provider) (p q : Provider) :
  p ∈ ps1 → Issuer q = Issuer p →
  validateIssuer jt (ps1 ++ q :: ps2) = validateIssuer jt (ps1 ++ ps2).
Proof.
  intros Hin Hq. unfold validateIssuer, getIssuer.
  destruct (index (Claims jt) issuerClaimName) as [|ti| | | |]; simpl;
    try reflexivity.
  destruct (String.eqb ti ""); [reflexivity|].
  rewrite !issuer_loop_app.
  destruct (issuer_loop _ _ ps1) as [p'|] eqn:Hl; [reflexivity|].
  apply issuer_loop_None in Hl.
  pose proof (proj1 (Forall_forall _ _) Hl p Hin) as Hp. simpl.
  rewrite Hq.
  assert (Hb : String.eqb ti (Issuer p)
               || String.eqb
                    (if String.eqb ti "accounts.google.com"
                     then "https://" +:+ ti else ti) (Issuer p) = false).
  { apply orb_false_iff. rewrite !String.eqb_neq.
    split; intros H; apply Hp; [left|right]; exact H. }
  by rewrite Hb.
Qed.

(** ** The callbacks in an arbitrary environment *)

Lemma validateIssuer_ext (jt jt' : Token) (ps : list Provider) :
  Claims jt !! issuerClaimName = Claims jt' !! issuerClaimName →
  validateIssuer jt ps = validateIssuer jt' ps.
Proof. intros H. unfold validateIssuer, getIssuer, index. by rewrite H. Qed.

Lemma validateAudiences_ext (jt jt' : Token) (p : Provider) :
  Claims jt !! audiencesClaimName = Claims jt' !! audiencesClaimName →
  validateAudiences jt p = validateAudiences jt' p.
Proof. intros H. unfold validateAudiences, getAudiences, index. by rewrite H. Qed.

Lemma validateSubject_ext (jt jt' : Token) :
  Claims jt !! subjectClaimName = Claims jt' !! subjectClaimName →
  validateSubject jt = validateSubject jt'.
Proof. intros H. unfold validateSubject, getSubject, index. by rewrite H. Qed.

Lemma getTokenKid_ext (jt jt' : Token) :
  Header jt !! keyIDJwtHeaderName = Header jt' !! keyIDJwtHeaderName →
  getTokenKid jt = getTokenKid jt'.
Proof. intros H. unfold getTokenKid, index. by rewrite H. Qed.

Lemma validateSubject_Ok_inv (jt : Token) (sub : string) :
  validateSubject jt = Ok sub →
  index (Claims jt) subjectClaimName = IString sub ∧ sub ≠ "".
Proof.
  unfold validateSubject, getSubject.
  destruct (index (Claims jt) subjectClaimName) as [|ts| | | |]; simpl;
    try discriminate.
  destruct (String.eqb ts "") eqn:He; [discriminate|].
  apply String.eqb_neq in He. by intros [= ->].
Qed.

Lemma validateAudiences_Ok_inv (jt : Token) (p : Provider) (a : string) :
  validateAudiences jt p = Ok a →
  a ≠ "" ∧ ∃ auds, getAudiences jt = Ok auds ∧ IString a ∈ auds.
Proof.
  unfold validateAudiences.
  destruct (getAudiences jt) as [auds|e]; [|discriminate].
  destruct (clientid_loop (ClientIDs p) auds) as [r|] eqn:Hl; [|discriminate].
  intros ->. apply clientid_loop_Ok in Hl as (? & _ & ?).
  split; [done|]. by exists auds.
Qed.

(** Membership in a short trace, one call at a time. *)
Ltac each_call H :=
  repeat (apply elem_of_cons in H as [->|H]); [..|by apply elem_of_nil in H].

Section CallbackProperties.

Context {Request : Type}.
Variable providers_validate : list Provider → option error.
Variable jwtErrorToOpenIDError : error → error.

(** X7: the first-pass callback reads four fields of the token and nothing
    else: two tokens that agree on the issuer, audience and subject claims
    and on the [kid] header make the same calls and end alike in every
    environment, whatever their other claims and header fields hold. *)
Theorem first_pass_reads_four_fields {S : Type} (h : handler collabE S) (s : S)
    (r : Request) (jt jt' : Token) :
  Claims jt !! issuerClaimName = Claims jt' !! issuerClaimName →
  Claims jt !! audiencesClaimName = Claims jt' !! audiencesClaimName →
  Claims jt !! subjectClaimName = Claims jt' !! subjectClaimName →
  Header jt !! keyIDJwtHeaderName = Header jt' !! keyIDJwtHeaderName →
  run h (getSigningKey providers_validate r jt) s =
  run h (getSigningKey providers_validate r jt') s.
Proof.
  intros Hiss Haud Hsub Hkid. rewrite !run_getSigningKey.
  destruct (h _ ProvGetter s) as [[provs perr] s1]. cbv zeta.
  destruct perr; [done|].
  destruct (providers_validate provs); [done|].
  rewrite (validateIssuer_ext jt jt' provs Hiss).
  destruct (validateIssuer jt' provs) as [p|]; [|done].
  rewrite (validateAudiences_ext jt jt' p Haud).
  destruct (validateAudiences jt' p); [|done].
  rewrite (validateSubject_ext jt jt' Hsub).
  destruct (validateSubject jt'); [|done].
  by rewrite (getTokenKid_ext jt jt' Hkid).
Qed.

(** X8: the first-pass callback hands a key to the parser only for a token
    that passed every check: if it returns a key, the provider source
    answered without error with a list that [providers.validate] accepted,
    and issuer, audience and subject validation all succeeded on it. *)
Theorem first_pass_key_implies_valid {S : Type} (h : handler collabE S) (s : S)
    (r : Request) (jt : Token) (k : PublicKey) (err : option error)
    (tr : list (interaction collabE)) (s' : S) :
  run h (getSigningKey providers_validate r jt) s = (Returned (Some k, err), tr, s') →
  ∃ provs tl p a sub,
    tr = Call ProvGetter (provs, None) :: tl ∧
    providers_validate provs = None ∧
    validateIssuer jt provs = Ok p ∧ p ∈ provs ∧
    validateAudiences jt p = Ok a ∧ a ∈ ClientIDs p ∧
    validateSubject jt = Ok sub.
Proof.
  rewrite run_getSigningKey.
  destruct (h _ ProvGetter s) as [[provs perr] s1]. cbv zeta.
  destruct perr; [discriminate|].
  destruct (providers_validate provs) eqn:Hpv; [discriminate|].
  destruct (validateIssuer jt provs) as [p|] eqn:Hiss; [|discriminate].
  destruct (validateAudiences jt p) as [a|] eqn:Haud; [|discriminate].
  destruct (validateSubject jt) as [sub|] eqn:Hsub; [|discriminate].
  destruct (h _ (KeyGetter_getSigningKey r (Issuer p) (getTokenKid jt)) s1)
    as [[key [e0|]] s2]; [discriminate|].
  destruct (h _ (RsaParser key) s2) as [x s3]. intros Hrun.
  inversion Hrun; subst. eexists provs, _, p, a, sub.
  split; [reflexivity|]. repeat split; try done.
  - apply validateIssuer_Ok_inv in Hiss as (ti & _ & _ & Hl).
    apply issuer_loop_Some in Hl as (ps1 & ps2 & -> & _).
    apply elem_of_app. right. apply elem_of_cons. by left.
  - unfold validateAudiences in Haud.
    destruct (getAudiences jt) as [auds|]; [|discriminate].
    destruct (clientid_loop (ClientIDs p) auds) as [r0|] eqn:Hl; [|discriminate].
    subst r0. by apply clientid_loop_Ok in Hl as (_ & ? & _).
Qed.

(** X9: on both callbacks the key decoder is handed exactly the bytes that
    the key resolver answered with, and what the decoder answers, key and
    error alike, is what the callback returns. *)
Theorem decoder_gets_fetched_key {S : Type} (h : handler collabE S) (s : S)
    (r : Request) (jt : Token)
    (o : outcome keyfunc_result) (tr : list (interaction collabE)) (s' : S)
    (i : interaction collabE) (key : list Byte.byte) :
  run h (getSigningKey providers_validate r jt) s = (o, tr, s') ∨
  run h (renewAndGetSigningKey r jt) s = (o, tr, s') →
  i ∈ tr → decoded_bytes i = Some key →
  (∃ j, j ∈ tr ∧ fetched_bytes j = Some key) ∧
  ∃ x, decoder_answer i = Some x ∧ o = Returned x.
Proof.
  intros [Hrun|Hrun] Hi Hd.
  - rewrite run_getSigningKey in Hrun.
    destruct (h _ ProvGetter s) as [[provs perr] s1]. cbv zeta in Hrun.
    destruct perr as [e0|].
    { inversion Hrun; subst. each_call Hi. discriminate Hd. }
    destruct (providers_validate provs) as [e0|].
    { inversion Hrun; subst. each_call Hi. discriminate Hd. }
    destruct (validateIssuer jt provs) as [p|e0]; cycle 1.
    { inversion Hrun; subst. each_call Hi. discriminate Hd. }
    destruct (validateAudiences jt p) as [a|e0]; cycle 1.
    { inversion Hrun; subst. each_call Hi. discriminate Hd. }
    destruct (validateSubject jt) as [sub|e0]; cycle 1.
    { inversion Hrun; subst. each_call Hi. discriminate Hd. }
    destruct (h _ (KeyGetter_getSigningKey r (Issuer p) (getTokenKid jt)) s1)
      as [[key0 [e0|]] s2].
    + inversion Hrun; subst. each_call Hi; discriminate Hd.
    + destruct (h _ (RsaParser key0) s2) as [x s3].
      inversion Hrun; subst. each_call Hi; try discriminate Hd.
      simpl in Hd. injection Hd as ->. split; [|by exists x].
      eexists. split;
        [apply elem_of_cons; right; apply elem_of_cons; left; reflexivity|].
      reflexivity.
  - rewrite run_renewAndGetSigningKey in Hrun.
    destruct (index (Claims jt) issuerClaimName) as [|iss| | | |];
      try (inversion Hrun; subst; by apply elem_of_nil in Hi).
    cbv zeta in Hrun.
    destruct (h _ (KeyGetter_flushCachedSigningKeys iss) s) as [[e0|] s1].
    { inversion Hrun; subst. each_call Hi. discriminate Hd. }
    destruct (h _ (KeyGetter_getSigningKey r iss (getTokenKid jt)) s1)
      as [[key0 [e0|]] s2].
    + inversion Hrun; subst. each_call Hi; discriminate Hd.
    + destruct (h _ (RsaParser key0) s2) as [x s3].
      inversion Hrun; subst. each_call Hi; try discriminate Hd.
      simpl in Hd. injection Hd as ->. split; [|by exists x].
      eexists. split;
        [apply elem_of_cons; right; apply elem_of_cons; left; reflexivity|].
      reflexivity.
Qed.

(** X10: the first-pass callback never flushes the key cache, makes at most
    three collaborator calls, and decodes a key only after it fetched one. *)
Theorem first_pass_never_flushes {S : Type} (h : handler collabE S) (s : S)
    (r : Request) (jt : Token) :
  let tr := (run h (getSigningKey providers_validate r jt) s).1.2 in
  count_calls is_flush tr = 0 ∧
  (length tr ≤ 3)%nat ∧
  (count_calls is_rsaParser tr ≤ count_calls is_getSigningKey tr)%nat.
Proof.
  rewrite run_getSigningKey. unfold count_calls.
  destruct (h _ ProvGetter s) as [[provs perr] s1]. cbv zeta.
  destruct perr; [simpl; lia|].
  destruct (providers_validate provs); [simpl; lia|].
  destruct (validateIssuer jt provs) as [p|]; [|simpl; lia].
  destruct (validateAudiences jt p); [|simpl; lia].
  destruct (validateSubject jt); [|simpl; lia].
  destruct (h _ (KeyGetter_getSigningKey r (Issuer p) (getTokenKid jt)) s1)
    as [[key [e0|]] s2]; [simpl; lia|].
  destruct (h _ (RsaParser key) s2) as [x s3]. simpl. lia.
Qed.

(** X11: the two callbacks address the key resolver differently.  The first
    pass asks for the key of the matched provider's [Issuer]; renewal flushes
    and asks for the token's issuer claim verbatim, with the same request and
    key identifier.  The two issuers are equal unless the claim is
    [accounts.google.com] and the provider is registered under the
    [https://] form. *)
Theorem renewal_addresses_claim_verbatim {S S' : Type}
    (h : handler collabE S) (s : S) (h' : handler collabE S') (s0 : S')
    (r : Request) (jt : Token) (i j : interaction collabE)
    (r1 : Request) (iss1 kid1 : string) :
  i ∈ (run h (getSigningKey providers_validate r jt) s).1.2 →
  key_request i = Some (r1, iss1, kid1) →
  j ∈ (run h' (renewAndGetSigningKey r jt) s0).1.2 →
  ∃ ti, index (Claims jt) issuerClaimName = IString ti ∧
        (iss1 = ti ∨
         (ti = "accounts.google.com" ∧ iss1 = "https://accounts.google.com")) ∧
        (is_flush j = true → flushed_issuer j = Some ti) ∧
        (is_getSigningKey j = true → key_request j = Some (r1, ti, kid1)).
Proof.
  rewrite run_getSigningKey, run_renewAndGetSigningKey.
  destruct (h _ ProvGetter s) as [[provs perr] s1]. cbv zeta.
  intros Hi Hreq Hj.
  assert (Hfirst : ∃ p, validateIssuer jt provs = Ok p ∧ r1 = r ∧
                        iss1 = Issuer p ∧ kid1 = getTokenKid jt).
  { destruct perr; [simpl in Hi; each_call Hi; discriminate Hreq|].
    destruct (providers_validate provs);
      [simpl in Hi; each_call Hi; discriminate Hreq|].
    destruct (validateIssuer jt provs) as [p|];
      [|simpl in Hi; each_call Hi; discriminate Hreq].
    exists p. split; [done|].
    destruct (validateAudiences jt p);
      [|simpl in Hi; each_call Hi; discriminate Hreq].
    destruct (validateSubject jt);
      [|simpl in Hi; each_call Hi; discriminate Hreq].
    destruct (h _ (KeyGetter_getSigningKey r (Issuer p) (getTokenKid jt)) s1)
      as [[key [e0|]] s2].
    - simpl in Hi. each_call Hi; [discriminate Hreq|]. simpl in Hreq.
      by injection Hreq as <- <- <-.
    - destruct (h _ (RsaParser key) s2) as [x s3]. simpl in Hi.
      each_call Hi; [discriminate Hreq| |discriminate Hreq]. simpl in Hreq.
      by injection Hreq as <- <- <-. }
  destruct Hfirst as (p & Hiss & -> & -> & ->).
  apply validateIssuer_Ok_inv in Hiss as (ti & Hclaim & Hne & Hl).
  apply issuer_loop_Some in Hl as (ps1 & ps2 & _ & Hp & _).
  apply loop_test_matches in Hp.
  rewrite (index_Some _ _ _ Hclaim) in Hj |- *.
  exists ti. split; [done|]. split.
  { destruct Hp as [Hp|[Hg Hp]]; [by left|by right]. }
  cbv zeta in Hj.
  destruct (h' _ (KeyGetter_flushCachedSigningKeys ti) s0) as [[e0|] s1'].
  { simpl in Hj. each_call Hj. by split. }
  destruct (h' _ (KeyGetter_getSigningKey r ti (getTokenKid jt)) s1')
    as [[key [e0|]] s2'].
  { simpl in Hj. each_call Hj; by split. }
  destruct (h' _ (RsaParser key) s2') as [x s3'].
  simpl in Hj. each_call Hj; by split.
Qed.

(** X12: a token whose issuer, audience or subject claim is absent, null or
    the empty string, or whose audience list is empty, never gets a key: in
    every environment the first-pass callback returns an error and neither
    the key resolver nor the decoder is called. *)
Theorem blank_claims_rejected {S : Type} (h : handler collabE S) (s : S)
    (r : Request) (jt : Token)
    (o : outcome keyfunc_result) (tr : list (interaction collabE)) (s' : S) :
  absent_or_empty (index (Claims jt) issuerClaimName) ∨
  absent_or_empty (index (Claims jt) audiencesClaimName) ∨
  index (Claims jt) audiencesClaimName = ISlice [] ∨
  absent_or_empty (index (Claims jt) subjectClaimName) →
  run h (getSigningKey providers_validate r jt) s = (o, tr, s') →
  (∃ e, o = Returned (None, Some e)) ∧
  count_calls is_getSigningKey tr = 0 ∧ count_calls is_rsaParser tr = 0.
Proof.
  intros Hblank. rewrite run_getSigningKey. unfold count_calls.
  destruct (h _ ProvGetter s) as [[provs perr] s1]. cbv zeta.
  destruct perr as [e0|]; [intros [= <- <- <-]; by eauto|].
  destruct (providers_validate provs) as [e0|]; [intros [= <- <- <-]; by eauto|].
  destruct (validateIssuer jt provs) as [p|e0] eqn:Hiss;
    [|intros [= <- <- <-]; by eauto].
  destruct (validateAudiences jt p) as [a|e0] eqn:Haud;
    [|intros [= <- <- <-]; by eauto].
  destruct (validateSubject jt) as [sub|e0] eqn:Hsub;
    [|intros [= <- <- <-]; by eauto].
  exfalso.
  apply validateIssuer_Ok_inv in Hiss as (ti & Hclaim & Hti & _).
  apply validateAudiences_Ok_inv in Haud as (Ha & auds & Hget & Hin).
  apply validateSubject_Ok_inv in Hsub as (Hs & Hsne).
  pose proof (getAudiences_classify jt) as Hg.
  destruct Hblank as [[H|H]|[[H|H]|[H|[H|H]]]].
  - rewrite (index_Some _ _ _ Hclaim) in H. discriminate H.
  - rewrite (index_Some _ _ _ Hclaim) in H. by injection H.
  - rewrite H in Hg. simpl in Hg. rewrite Hget in Hg. discriminate Hg.
  - rewrite H, Hget in Hg. injection Hg as ->.
    apply elem_of_cons in Hin as [Hin|Hin]; [by injection Hin|].
    by apply elem_of_nil in Hin.
  - rewrite H, Hget in Hg. injection Hg as ->. by apply elem_of_nil in Hin.
  - rewrite Hs in H. discriminate H.
  - rewrite Hs in H. by injection H.
Qed.

(** X13: whatever the parser answers, [validate] ends by returning (it does
    not panic on its own), and what it returns is fixed by the answer of the
    last parse attempt: when that answer carries an error [e], no token and
    the error [jwtErrorToOpenIDError e], even if the parser handed a token
    back together with the error; when it carries none, the token of that
    answer and no error. *)
Theorem validate_result_shape {S : Type} (h : handler parserE S) (s : S)
    (r : Request) (t : string) :
  let o := (run h (validate providers_validate jwtErrorToOpenIDError r t) s).1.1 in
  let tr := (run h (validate providers_validate jwtErrorToOpenIDError r t) s).1.2 in
  ∃ c, last tr = Some c ∧
       match parse_response c with
       | (_, Some e) => o = Returned (None, Some (jwtErrorToOpenIDError e))
       | (tok, None) => o = Returned (tok, None)
       end.
Proof.
  rewrite run_validate. cbv zeta.
  destruct (h _ (JwtParser t (getSigningKey providers_validate r)) s)
    as [[tok1 [e1|]] s1]; simpl.
  - destruct (signature_invalid e1).
    + destruct (h _ (JwtParser t (renewAndGetSigningKey r)) s1)
        as [[tok2 [e2|]] s2]; simpl; by eexists.
    + simpl. by eexists.
  - by eexists.
Qed.

End CallbackProperties.

(** ** The further properties at concrete inputs *)

Lemma validateIssuer_sound_witness :
  example_provider ∈ [example_provider] ∧ [example_provider] ≠ [] ∧
  ∃ ti, Claims example_token !! issuerClaimName = Some (IString ti) ∧ ti ≠ "" ∧
        issuer_matches ti example_provider.
Proof.
  exact (validateIssuer_sound example_token [example_provider] example_provider
           eq_refl).
Defined.

Lemma validateAudiences_scalar_as_list_witness :
  validateAudiences example_token example_provider =
  validateAudiences
    (token_of_claims [("aud", ISlice [IString "client-1"])]) example_provider.
Proof.
  exact (validateAudiences_scalar_as_list example_token
           (token_of_claims [("aud", ISlice [IString "client-1"])])
           "client-1" example_provider eq_refl eq_refl).
Defined.

Lemma validateAudiences_succeeds_iff_common_witness :
  (∃ a, validateAudiences example_token example_provider = Ok a) ↔
  ∃ c, c ∈ ClientIDs example_provider ∧ c ∈ ["client-1"].
Proof.
  refine (proj1 (validateAudiences_succeeds_iff_common example_token
                   example_provider ["client-1"] eq_refl _)).
  constructor; [discriminate|constructor].
Defined.

Lemma validateAudiences_more_clients_witness :
  validateAudiences example_token
    (mkProvider "https://idp.example" ["client-1"; "client-2"])
  = validateAudiences example_token example_provider.
Proof.
  refine (validateAudiences_more_clients example_token example_provider
            (mkProvider "https://idp.example" ["client-1"; "client-2"])
            ["client-2"] eq_refl _).
  discriminate.
Defined.

Lemma validateAudiences_edges_witness :
  result_code
    (validateAudiences (token_of_claims [("iss", IString "https://idp.example")])
       example_provider)
  = Some ValidationErrorInvalidAudienceType.
Proof.
  exact (proj1 (validateAudiences_edges
                  (token_of_claims [("iss", IString "https://idp.example")])
                  example_provider) eq_refl).
Defined.

Lemma validateAudiences_entry_order_witness :
  result_value
    (validateAudiences (token_of_claims [("aud", ISlice [IString "B"; IString "A"])])
       (mkProvider "https://idp.example" ["A"; "B"]))
  = result_value
    (validateAudiences (token_of_claims [("aud", ISlice [IString "A"; IString "B"])])
       (mkProvider "https://idp.example" ["A"; "B"])).
Proof.
  refine (proj1 (validateAudiences_entry_order
    (token_of_claims [("aud", ISlice [IString "B"; IString "A"])])
    (token_of_claims [("aud", ISlice [IString "A"; IString "B"])])
    (mkProvider "https://idp.example" ["A"; "B"])
    ["B"; "A"] ["A"; "B"] eq_refl eq_refl _ _)).
  - constructor; [discriminate|]. constructor; [discriminate|constructor].
  - apply perm_swap.
Defined.

Lemma validateIssuer_duplicate_shadowed_witness :
  validateIssuer example_token
    [example_provider; mkProvider "https://idp.example" ["client-2"]]
  = validateIssuer example_token [example_provider].
Proof.
  refine (validateIssuer_duplicate_shadowed example_token [example_provider] []
            example_provider (mkProvider "https://idp.example" ["client-2"])
            _ eq_refl).
  apply elem_of_cons. by left.
Defined.

Lemma first_pass_reads_four_fields_witness :
  run (fixed_env [example_provider] None None None None)
      (getSigningKey providers_validate_spec tt example_token) 0
  = run (fixed_env [example_provider] None None None None)
      (getSigningKey providers_validate_spec tt example_token_with_more) 0.
Proof.
  exact (first_pass_reads_four_fields providers_validate_spec
           (fixed_env [example_provider] None None None None) 0 tt
           example_token example_token_with_more
           eq_refl eq_refl eq_refl eq_refl).
Defined.

Lemma first_pass_key_implies_valid_witness :
  ∃ provs tl p a sub,
    (run (fixed_env [example_provider] None None None None)
         (getSigningKey providers_validate_spec tt example_token) 0).1.2
    = Call ProvGetter (provs, None) :: tl ∧
    providers_validate_spec provs = None ∧
    validateIssuer example_token provs = Ok p ∧ p ∈ provs ∧
    validateAudiences example_token p = Ok a ∧ a ∈ ClientIDs p ∧
    validateSubject example_token = Ok sub.
Proof.
  exact (first_pass_key_implies_valid providers_validate_spec
           (fixed_env [example_provider] None None None None) 0 tt
           example_token (mkPublicKey 3233 17) None _ 3 eq_refl).
Defined.

Lemma decoder_gets_fetched_key_witness :
  (∃ j, j ∈ (run (fixed_env [] None None None None)
                 (renewAndGetSigningKey tt example_token) 0).1.2 ∧
        fetched_bytes j = Some []) ∧
  ∃ x, decoder_answer example_decode_call = Some x ∧
       (run (fixed_env [] None None None None)
            (renewAndGetSigningKey tt example_token) 0).1.1 = Returned x.
Proof.
  refine (decoder_gets_fetched_key providers_validate_spec
            (fixed_env [] None None None None) 0 tt example_token _ _ 3
            example_decode_call [] (or_intror eq_refl) _ eq_refl).
  apply elem_of_cons. right. apply elem_of_cons. right.
  apply elem_of_cons. by left.
Defined.

Lemma renewal_addresses_claim_verbatim_witness :
  ∃ ti, index (Claims google_token) issuerClaimName = IString ti ∧
        ("https://accounts.google.com" = ti ∨
         (ti = "accounts.google.com" ∧
          "https://accounts.google.com" = "https://accounts.google.com")) ∧
        (is_flush google_renewal_flush = true →
         flushed_issuer google_renewal_flush = Some ti) ∧
        (is_getSigningKey google_renewal_flush = true →
         key_request google_renewal_flush = Some (tt, ti, "")).
Proof.
  refine (renewal_addresses_claim_verbatim providers_validate_spec
    (fixed_env [mkProvider "https://accounts.google.com" ["client-1"]]
       None None None None) 0
    (fixed_env [] None None None None) 0
    tt google_token google_first_pass_request google_renewal_flush
    tt "https://accounts.google.com" "" _ eq_refl _).
  - apply elem_of_cons. right. apply elem_of_cons. by left.
  - apply elem_of_cons. by left.
Defined.

Lemma blank_claims_rejected_witness :
  (∃ e, (run (fixed_env [example_provider] None None None None)
             (getSigningKey providers_validate_spec tt
                (token_of_claims
                   [("iss", IString "https://idp.example");
                    ("aud", IString "client-1"); ("sub", IString "")])) 0).1.1
        = Returned (None, Some e)) ∧
  count_calls is_getSigningKey
    (run (fixed_env [example_provider] None None None None)
         (getSigningKey providers_validate_spec tt
            (token_of_claims
               [("iss", IString "https://idp.example");
                ("aud", IString "client-1"); ("sub", IString "")])) 0).1.2 = 0 ∧
  count_calls is_rsaParser
    (run (fixed_env [example_provider] None None None None)
         (getSigningKey providers_validate_spec tt
            (token_of_claims
               [("iss", IString "https://idp.example");
                ("aud", IString "client-1"); ("sub", IString "")])) 0).1.2 = 0.
Proof.
  refine (blank_claims_rejected providers_validate_spec
            (fixed_env [example_provider] None None None None) 0 tt
            (token_of_claims
               [("iss", IString "https://idp.example");
                ("aud", IString "client-1"); ("sub", IString "")])
            _ _ 1 _ eq_refl).
  right. right. right. right. reflexivity.
Defined.

(** The two issuers of X11 on a token issued by Google, with the provider
    registered under the prefixed form. *)
Example scenario_google_key_requests :
  (run (fixed_env [mkProvider "https://accounts.google.com" ["client-1"]]
          None None None None)
       (getSigningKey providers_validate_spec tt google_token) 0).1.2
  = [Call ProvGetter ([mkProvider "https://accounts.google.com" ["client-1"]], None);
     Call (KeyGetter_getSigningKey tt "https://accounts.google.com" "") ([], None);
     Call (RsaParser []) (Some (mkPublicKey 3233 17), None)] ∧
  (run (fixed_env [] None None None None)
       (renewAndGetSigningKey tt google_token) 0).1.2
  = [Call (KeyGetter_flushCachedSigningKeys "accounts.google.com") None;
     Call (KeyGetter_getSigningKey tt "accounts.google.com" "") ([], None);
     Call (RsaParser []) (Some (mkPublicKey 3233 17), None)].
Proof. split; reflexivity. Qed.
